(** * SteelBoy: the best-fit cutting-stock core and its two reporters

    A shallow embedding of [SteelBoy.py]: the item expansion and the
    best-fit packer ([best_fit_cutting_stock]), the pattern reporter
    ([generate_pattern_details_table]) and the aggregate reporter
    ([generate_final_report]).

    Numbers.  Lengths, demands and the stock length are Python [int]s and
    are modelled by [Z].  The kerf is a number the caller passes.  The
    packer is embedded twice.  The first embedding computes with the exact
    rationals [Q], compared with [==]: it is the program run with a kerf
    that is a Python [int], [inject_Z k], where every value is an integer
    and nothing is rounded, and it carries the properties that do not depend
    on the arithmetic.  The second, the module [Binary64], computes as the
    program does with a kerf that is a Python [float]: in binary64, every
    operation rounded to the nearest float, a length or stock length too
    large for a float raising [OverflowError].  [float('inf')] is the extra
    point [Infinity] of [bound] in the first embedding.  The weight per
    metre and the figures of the aggregate report in metres and kilograms
    are floats, modelled by exact rationals. *)

From Stdlib Require Import QArith Lqa.
From Stdlib Require Import Floats.PrimFloat Floats.SpecFloat Floats.FloatOps.
From stdpp Require Import base list strings pretty sorting gmap.

(** ** Data model *)

(** A parsed row of the parts file, the tuple
    [(profile, length_val, demand_val, weight_per_m)] of [read_csv_parts]. *)
Record Part := mkPart {
  part_profile : string;
  part_length : Z;
  part_demand : Z;
  part_weight : Q
}.

(** One piece to cut, the tuple [(profile, length)]. *)
Definition CutItem : Type := string * Z.

(** A stock bar, the dict [{'remaining': ..., 'cuts': [...]}]. *)
Record Bin := mkBin {
  remaining : Q;
  cuts : list CutItem
}.

(** The value of [min_remaining], which starts at [float('inf')]. *)
Inductive bound :=
  | Finite (q : Q)
  | Infinity.

Definition Qltb (x y : Q) : bool := negb (Qle_bool y x).

(** [q < m] for a finite [q]; every finite number is below [Infinity]. *)
Definition below (q : Q) (m : bound) : bool :=
  match m with
  | Finite m' => Qltb q m'
  | Infinity => true
  end.

(** ** The packer *)

(** [items.extend([(profile, length)] * demand)] for each part; a list
    multiplied by a non-positive number is empty. *)
Definition expand_items (parts : list Part) : list CutItem :=
  flat_map
    (fun p => replicate (Z.to_nat (part_demand p)) (part_profile p, part_length p))
    parts.

(** [items.sort(key=lambda x: x[1], reverse=True)]: Python's sort is stable,
    also with [reverse=True].  Insertion from the right, each item going in
    front of the first item that is not longer. *)
Fixpoint insert_item (x : CutItem) (l : list CutItem) : list CutItem :=
  match l with
  | [] => [x]
  | y :: l' => if (x.2 <? y.2)%Z then y :: insert_item x l' else x :: y :: l'
  end.

Definition sort_items (items : list CutItem) : list CutItem :=
  foldr insert_item [] items.

(** The inner loop [for bin in bins], started at the bin of index [i], on
    the loop state [(best_bin, min_remaining)]; [best_bin] is the position
    of the bin it refers to. *)
Fixpoint scan_bins (effective_length : Q) (i : nat) (bins : list Bin)
    (st : option nat * bound) : option nat * bound :=
  match bins with
  | [] => st
  | bin :: bins' =>
      let st' :=
        if Qle_bool effective_length (remaining bin) then
          let remaining_after := (remaining bin - effective_length)%Q in
          if below remaining_after st.2 then (Some i, Finite remaining_after)
          else st
        else st in
      scan_bins effective_length (S i) bins' st'
  end.

Definition find_best_bin (effective_length : Q) (bins : list Bin) : option nat :=
  (scan_bins effective_length 0 bins (None, Infinity)).1.

(** [best_bin['remaining'] -= effective_length;
    best_bin['cuts'].append((profile, length))]. *)
Definition add_cut (effective_length : Q) (item : CutItem) (bin : Bin) : Bin :=
  {| remaining := (remaining bin - effective_length)%Q;
     cuts := cuts bin ++ [item] |}.

(** A fresh bin holding [item]. *)
Definition new_bin (stock_length : Z) (effective_length : Q) (item : CutItem) : Bin :=
  {| remaining := (inject_Z stock_length - effective_length)%Q;
     cuts := [item] |}.

(** One round of the outer loop [for profile, length in items].  The bin
    dict is mutated in place, so it keeps its position in [bins]; a bin
    dict is never empty, so [if best_bin:] asks whether a bin was found. *)
Definition place_item (stock_length : Z) (cut_kerf : Q) (bins : list Bin)
    (item : CutItem) : list Bin :=
  let effective_length := (inject_Z item.2 + cut_kerf)%Q in
  match find_best_bin effective_length bins with
  | Some i => alter (add_cut effective_length item) i bins
  | None => bins ++ [new_bin stock_length effective_length item]
  end.

Definition pack_items (stock_length : Z) (cut_kerf : Q) (items : list CutItem)
    : list Bin :=
  foldl (place_item stock_length cut_kerf) [] items.

Definition best_fit_cutting_stock (parts : list Part) (stock_length : Z)
    (cut_kerf : Q) : list Bin :=
  pack_items stock_length cut_kerf (sort_items (expand_items parts)).

(** ** The pattern reporter *)

(** A row [[pattern_name, pattern_length, cut_details, remaining_waste]]. *)
Record PatternRow := mkPatternRow {
  pattern_name : string;
  pattern_length : Q;
  cut_details : string;
  remaining_waste : Q
}.

(** [f"1x {profile}({length}mm)"]. *)
Definition cut_entry (c : CutItem) : string :=
  "1x " +:+ c.1 +:+ "(" +:+ pretty c.2 +:+ "mm)".

(** [' + '.join(f"1x {profile}({length}mm)" for profile, length in bin['cuts'])]. *)
Definition render_cuts (cs : list CutItem) : string :=
  String.concat " + " (cut_entry <$> cs).

(** The body of the loop [for i, bin in enumerate(bins, 1)], at the
    zero-based position [i].  The local [total_length] is computed and
    never used, so it is left out. *)
Definition pattern_row (stock_length : Z) (i : nat) (bin : Bin) : PatternRow :=
  {| pattern_name := "Pattern " +:+ pretty (S i);
     pattern_length := (inject_Z stock_length - remaining bin)%Q;
     cut_details := render_cuts (cuts bin);
     remaining_waste := remaining bin |}.

Definition pattern_headers : list string :=
  ["Pattern Name"; "Pattern Length (mm)"; "Cut Details"; "Remaining Waste (mm)"].

Definition generate_pattern_details_table (bins : list Bin) (stock_length : Z)
    : list PatternRow * list string :=
  (imap (pattern_row stock_length) bins, pattern_headers).

(** ** The aggregate reporter *)

(** The exception a subscript out of range raises. *)
Inductive exn := IndexError.

Inductive outcome (A : Type) :=
  | Returns (a : A)
  | Raises (e : exn).
Arguments Returns {A} a.
Arguments Raises {A} e.

(** [l[0]] *)
Definition first {A : Type} (l : list A) : outcome A :=
  match l with
  | x :: _ => Returns x
  | [] => Raises IndexError
  end.

(** The single row of the summary table, one field per column. *)
Record AggregateRow := mkAggregateRow {
  row_profile : string;
  row_total_stocks_used : nat;
  row_stock_length : Z;
  row_weight_per_m : Q;
  row_total_stock_consumed_m : Q;
  row_effective_usage_m : Q;
  row_waste_m : Q;
  row_total_order_weight_kg : Q;
  row_effective_weight_kg : Q;
  row_waste_weight_kg : Q
}.

Definition aggregate_headers : list string :=
  ["Profile"; "Total Stocks Used"; "Stock Length (mm)"; "Weight (kgm)";
   "Total Usage (m)"; "Effective Usage (m)"; "Waste (m)";
   "Total Order Weight (kg)"; "Effective Weight (kg)"; "Waste Weight (kg)"].

(** The locals of [generate_final_report], in the order it computes them. *)
Definition total_stocks_used (bins : list Bin) : nat := length bins.

Definition total_stock_consumed_mm (bins : list Bin) (stock_length : Z) : Z :=
  Z.of_nat (total_stocks_used bins) * stock_length.

Fixpoint sum_Z (l : list Z) : Z :=
  match l with
  | [] => 0
  | x :: l' => x + sum_Z l'
  end.

Definition effective_usage_mm (parts : list Part) : Z :=
  sum_Z ((fun p => part_length p * part_demand p)%Z <$> parts).

Definition total_demand (parts : list Part) : Z :=
  sum_Z (part_demand <$> parts).

Definition waste_mm (parts : list Part) (bins : list Bin) (stock_length : Z)
    (cut_kerf : Q) : Q :=
  (inject_Z (total_stock_consumed_mm bins stock_length - effective_usage_mm parts)
   - cut_kerf * inject_Z (total_demand parts))%Q.

(** [x * weight_per_m if weight_per_m > 0 else 0] *)
Definition weight_of (x weight_per_m : Q) : Q :=
  if Qltb 0 weight_per_m then (x * weight_per_m)%Q else 0%Q.

(** [profile if profile else parts[0][0]]: [None] and the empty string are
    both false. *)
Definition profile_or (profile : option string) (p0 : Part) : string :=
  match profile with
  | Some s => if String.eqb s "" then part_profile p0 else s
  | None => part_profile p0
  end.

Definition generate_final_report (parts : list Part) (bins : list Bin)
    (stock_length : Z) (cut_kerf : Q) (profile : option string)
    : outcome (list AggregateRow * list string) :=
  let total_stock_consumed_m := (inject_Z (total_stock_consumed_mm bins stock_length) / 1000)%Q in
  let effective_usage_m := (inject_Z (effective_usage_mm parts) / 1000)%Q in
  let waste_m := (waste_mm parts bins stock_length cut_kerf / 1000)%Q in
  match first parts with
  | Raises e => Raises e
  | Returns p0 =>
      let weight_per_m := part_weight p0 in
      Returns
        ([ {| row_profile := profile_or profile p0;
              row_total_stocks_used := total_stocks_used bins;
              row_stock_length := stock_length;
              row_weight_per_m := weight_per_m;
              row_total_stock_consumed_m := total_stock_consumed_m;
              row_effective_usage_m := effective_usage_m;
              row_waste_m := waste_m;
              row_total_order_weight_kg := weight_of total_stock_consumed_m weight_per_m;
              row_effective_weight_kg := weight_of effective_usage_m weight_per_m;
              row_waste_weight_kg := weight_of waste_m weight_per_m |} ],
         aggregate_headers)
  end.

(** ** Reading the parts file *)

(** The values a row of [csv.DictReader] holds: a field is a [str], a
    missing field is [None], and the fields beyond the header come as one
    list.  A Python [str] is a [string] here, each character standing for a
    code point below 256. *)
#[warnings="-register-all"]
Inductive pyval :=
  | VNone
  | VStr (s : string)
  | VList (l : list pyval).

(** [ch.isspace()] for a code point below 256. *)
Definition is_space (a : Ascii.ascii) : bool :=
  let n := Ascii.nat_of_ascii a in
  ((9 <=? n) && (n <=? 13)) || ((28 <=? n) && (n <=? 32))
  || (n =? 133) || (n =? 160).

Fixpoint lstrip (s : string) : string :=
  match s with
  | EmptyString => EmptyString
  | String a s' => if is_space a then lstrip s' else s
  end.

Fixpoint rstrip (s : string) : string :=
  match s with
  | EmptyString => EmptyString
  | String a s' =>
      match rstrip s' with
      | EmptyString => if is_space a then EmptyString else String a EmptyString
      | r => String a r
      end
  end.

(** [s.strip()] *)
Definition strip (s : string) : string := rstrip (lstrip s).

(** [safe_str]: the first element of a list, the empty string for an empty
    list and for [None], the stripped text otherwise. *)
Fixpoint safe_str (val : pyval) : string :=
  match val with
  | VList [] => ""
  | VList (v :: _) => safe_str v
  | VNone => ""
  | VStr s => strip s
  end.

(** The truth value of a field, as [any] reads it. *)
Definition truthy (val : pyval) : bool :=
  match val with
  | VNone => false
  | VStr EmptyString => false
  | VStr _ => true
  | VList [] => false
  | VList _ => true
  end.

(** A row as [row.items()] lists it; the key of the surplus fields is
    [None]. *)
Definition Row : Type := list (option string * pyval).

Definition key_value (k : option string) : pyval :=
  match k with
  | Some s => VStr s
  | None => VNone
  end.

(** [{safe_str(k): safe_str(v) for k, v in row.items()}]: of two keys that
    strip to the same text the later one stays. *)
Definition row_stripped (row : Row) : gmap string string :=
  foldl (fun m kv => <[safe_str (key_value kv.1) := safe_str kv.2]> m) ∅ row.

(** [encodings] as [try_decode_file] has them by default. *)
Definition default_encodings : list string :=
  ["utf-8-sig"; "latin1"; "windows-1252"; "iso-8859-1"].

(** What [file_content.decode(encoding)] does: it returns the text, or
    raises a [UnicodeDecodeError], or raises an exception of another class,
    given by its name: [LookupError] for an encoding Python does not know,
    [UnicodeError] for the codec [undefined], [ValueError] for a name with
    a null character. *)
Inductive decoding :=
  | Text (text : string)
  | UnicodeDecodeError
  | OtherError (name : string).

(** What [try_decode_file] does: it returns, or an exception of [decode]
    that is no [UnicodeDecodeError] passes through it, or its last line
    raises.  That line builds a [UnicodeDecodeError] from one argument
    where the class takes five, so what it raises is a [TypeError]. *)
Inductive decode_outcome :=
  | Decoded (text : string) (encoding : string)
  | RaisesOther (name : string)
  | RaisesTypeError.

Section builtins.

(** [bytes.decode], [int] and [float] on a [str] ([None] for a
    [ValueError]; a float that is neither infinite nor a NaN), and
    [csv.DictReader(csv_content.splitlines(), delimiter=';')] read to its
    end ([None] when it raises). *)
Variable decode : list Byte.byte -> string -> decoding.
Variable int_of_str : string -> option Z.
Variable float_of_str : string -> option Q.
Variable DictReader : string -> option (list Row).

Fixpoint try_decode_file (file_content : list Byte.byte)
    (encodings : list string) : decode_outcome :=
  match encodings with
  | [] => RaisesTypeError
  | encoding :: encodings' =>
      match decode file_content encoding with
      | Text text => Decoded text encoding
      | UnicodeDecodeError => try_decode_file file_content encodings'
      | OtherError name => RaisesOther name
      end
  end.

(** [int(row_stripped.get(key, 0))] *)
Definition int_field (m : gmap string string) (key : string) : option Z :=
  match m !! key with
  | Some s => int_of_str s
  | None => Some 0%Z
  end.

(** [float(row_stripped.get(key, 0))] *)
Definition float_field (m : gmap string string) (key : string) : option Q :=
  match m !! key with
  | Some s => float_of_str s
  | None => Some 0%Q
  end.

(** The body of the loop [for row in reader]: the part the row adds, or
    [None] where the body runs into a [continue]. *)
Definition part_of_row (row : Row) : option Part :=
  if negb (existsb truthy row.*2) then None else
  let m := row_stripped row in
  let profile := default "" (m !! "Size") +:+ "_" +:+ default "" (m !! "Grade") in
  if String.eqb profile "" || String.eqb profile "_" then None else
  match int_field m "Length(mm)" with
  | None => None
  | Some length_val =>
      match int_field m "Quantity" with
      | None => None
      | Some demand_val =>
          match float_field m "Weight(kg/m)" with
          | None => None
          | Some weight_per_m =>
              if (length_val <=? 0)%Z || (demand_val <=? 0)%Z then None
              else Some (mkPart profile length_val demand_val weight_per_m)
          end
      end
  end.

Definition parts_of_rows (rows : list Row) : list Part :=
  foldl (fun parts row =>
           match part_of_row row with
           | Some part => parts ++ [part]
           | None => parts
           end) [] rows.

(** [read_csv_parts]: [None] when anything raised. *)
Definition read_csv_parts (csv_content : string) : option (list Part) :=
  match DictReader csv_content with
  | Some rows => Some (parts_of_rows rows)
  | None => None
  end.

End builtins.

(** ** The request handler, from the parts to the tables *)

(** [encodings] as [index] builds it: the selected encoding first. *)
Definition index_encodings (selected_encoding : string) : list string :=
  selected_encoding
  :: filter (fun e => e <> selected_encoding) default_encodings.

(** [parts_by_profile[part[0]].append(part)] on a dict, which keeps its keys
    in the order they came in. *)
Fixpoint add_to_profile (part : Part) (groups : list (string * list Part))
    : list (string * list Part) :=
  match groups with
  | [] => [(part_profile part, [part])]
  | (profile, group) :: groups' =>
      if String.eqb (part_profile part) profile
      then (profile, group ++ [part]) :: groups'
      else (profile, group) :: add_to_profile part groups'
  end.

Definition group_by_profile (parts : list Part) : list (string * list Part) :=
  foldl (fun groups part => add_to_profile part groups) [] parts.

(** A row of [all_details_data]: the heading of a profile, four cells, or a
    row of the pattern reporter. *)
Inductive DetailsRow :=
  | Heading (cells : list string)
  | Pattern (row : PatternRow).

(** The four variables the loop over the groups fills. *)
Record Tables := mkTables {
  all_final_data : list AggregateRow;
  all_details_data : list DetailsRow;
  final_headers : option (list string);
  details_headers : option (list string)
}.

(** [if not headers: headers = new] *)
Definition headers_or (headers : option (list string)) (new : list string)
    : option (list string) :=
  match headers with
  | Some (_ :: _) => headers
  | _ => Some new
  end.

(** The body of the loop [for profile, group in parts_by_profile.items()]. *)
Definition process_group (stock_length : Z) (cut_kerf : Q) (t : Tables)
    (g : string * list Part) : outcome Tables :=
  let bins := best_fit_cutting_stock g.2 stock_length cut_kerf in
  match generate_final_report g.2 bins stock_length cut_kerf (Some g.1) with
  | Raises e => Raises e
  | Returns (agg_table, agg_headers) =>
      let (details_table, det_headers) :=
        generate_pattern_details_table bins stock_length in
      Returns
        {| all_final_data :=
             match agg_table with
             | [] => all_final_data t
             | _ => all_final_data t ++ agg_table
             end;
           final_headers := headers_or (final_headers t) agg_headers;
           all_details_data :=
             match details_table with
             | [] => all_details_data t
             | _ => all_details_data t
                    ++ [Heading ["Profile: " +:+ g.1; ""; ""; ""]]
                    ++ (Pattern <$> details_table)
             end;
           details_headers := headers_or (details_headers t) det_headers |}
  end.

Fixpoint process_groups (stock_length : Z) (cut_kerf : Q) (t : Tables)
    (groups : list (string * list Part)) : outcome Tables :=
  match groups with
  | [] => Returns t
  | g :: groups' =>
      match process_group stock_length cut_kerf t g with
      | Raises e => Raises e
      | Returns t' => process_groups stock_length cut_kerf t' groups'
      end
  end.

(** The part of [index] between the parsed parts and the two tables. *)
Definition build_tables (parts : list Part) (stock_length : Z) (cut_kerf : Q)
    : outcome Tables :=
  process_groups stock_length cut_kerf
    {| all_final_data := []; all_details_data := [];
       final_headers := None; details_headers := None |}
    (group_by_profile parts).

(** ** The packer with a float kerf *)

Module Binary64.

(** The exception of [int + float] and [int - float] when the integer is
    too large for a float. *)
Inductive error := OverflowError.

Inductive result (A : Type) :=
  | Ok (a : A)
  | Error (e : error).
Arguments Ok {A} a.
Arguments Error {A} e.

(** The float nearest to an integer, ties to even. *)
Definition nearest_float (n : Z) : float :=
  SF2Prim (binary_normalize prec emax n 0 false).

(** The conversion of an integer operand: [OverflowError] when the nearest
    float would be infinite. *)
Definition float_of_int (n : Z) : result float :=
  if is_infinity (nearest_float n) then Error OverflowError
  else Ok (nearest_float n).

(** A stock bar, [remaining] a float. *)
Record Bin := mkBin {
  remaining : float;
  cuts : list CutItem
}.

(** The inner loop [for bin in bins]; [min_remaining] starts at
    [float('inf')]. *)
Fixpoint scan_bins (effective_length : float) (i : nat) (bins : list Bin)
    (st : option nat * float) : option nat * float :=
  match bins with
  | [] => st
  | bin :: bins' =>
      let st' :=
        if (effective_length <=? remaining bin)%float then
          let remaining_after := (remaining bin - effective_length)%float in
          if (remaining_after <? st.2)%float then (Some i, remaining_after)
          else st
        else st in
      scan_bins effective_length (S i) bins' st'
  end.

Definition find_best_bin (effective_length : float) (bins : list Bin)
    : option nat :=
  (scan_bins effective_length 0 bins (None, infinity)).1.

Definition add_cut (effective_length : float) (item : CutItem) (bin : Bin)
    : Bin :=
  {| remaining := (remaining bin - effective_length)%float;
     cuts := cuts bin ++ [item] |}.

(** One round of the outer loop: [length + cut_kerf] converts the length,
    [stock_length - effective_length] the stock length. *)
Definition place_item (stock_length : Z) (cut_kerf : float) (bins : list Bin)
    (item : CutItem) : result (list Bin) :=
  match float_of_int item.2 with
  | Error e => Error e
  | Ok length =>
      let effective_length := (length + cut_kerf)%float in
      match find_best_bin effective_length bins with
      | Some i => Ok (alter (add_cut effective_length item) i bins)
      | None =>
          match float_of_int stock_length with
          | Error e => Error e
          | Ok stock =>
              Ok (bins ++ [ {| remaining := (stock - effective_length)%float;
                               cuts := [item] |} ])
          end
      end
  end.

Fixpoint pack_items (stock_length : Z) (cut_kerf : float) (bins : list Bin)
    (items : list CutItem) : result (list Bin) :=
  match items with
  | [] => Ok bins
  | item :: items' =>
      match place_item stock_length cut_kerf bins item with
      | Error e => Error e
      | Ok bins' => pack_items stock_length cut_kerf bins' items'
      end
  end.

Definition best_fit_cutting_stock (parts : list Part) (stock_length : Z)
    (cut_kerf : float) : result (list Bin) :=
  pack_items stock_length cut_kerf [] (sort_items (expand_items parts)).

(** [length + kerf] for a cut that is in a bin, whose length was
    converted before. *)
Definition effective (cut_kerf : float) (c : CutItem) : float :=
  (nearest_float c.2 + cut_kerf)%float.

(** [sum(length + kerf for cuts)], from the left, starting at [0]. *)
Definition sum_effective (cut_kerf : float) (cs : list CutItem) : float :=
  foldl (fun acc c => (acc + effective cut_kerf c)%float) 0%float cs.

End Binary64.

(** * Vocabulary of the properties *)

(** A bin fits when its remaining length covers the effective length. *)
Definition fits (effective_length : Q) (bin : Bin) : Prop :=
  (effective_length <= remaining bin)%Q.

(** What the loop state says about the bins seen so far. *)
Definition best_so_far (effective_length : Q) (seen : list Bin)
    (st : option nat * bound) : Prop :=
  match st with
  | (None, Infinity) => forall j b, seen !! j = Some b -> ~ fits effective_length b
  | (Some i, Finite r) =>
      exists b, seen !! i = Some b /\ fits effective_length b /\
        r = (remaining b - effective_length)%Q /\
        forall j b', seen !! j = Some b' -> fits effective_length b' ->
          (r <= remaining b' - effective_length)%Q /\
          (j < i -> (r < remaining b' - effective_length)%Q)
  | _ => False
  end.

(** The effective length of an item, [length + cut_kerf]. *)
Definition effective (cut_kerf : Q) (item : CutItem) : Q :=
  (inject_Z item.2 + cut_kerf)%Q.

(** Longest first. *)
Definition longer_first (a b : CutItem) : Prop := (b.2 <= a.2)%Z.

(** The items of one length, in the order of the list. *)
Definition of_length (k : Z) (items : list CutItem) : list CutItem :=
  filter (fun c : CutItem => c.2 = k) items.

(** Every cut of every bin, bin after bin. *)
Definition all_cuts (bins : list Bin) : list CutItem :=
  concat (cuts <$> bins).

(** How many copies of [c] the parts list asks for. *)
Definition copies_of (c : CutItem) (parts : list Part) : nat :=
  sum_list
    ((fun p => if decide ((part_profile p, part_length p) = c)
               then Z.to_nat (part_demand p) else 0%nat) <$> parts).

Definition count_item (c : CutItem) (items : list CutItem) : nat :=
  length (filter (fun c' : CutItem => c' = c) items).

(** [sum(length + kerf for cuts)] *)
Definition sum_effective (cut_kerf : Q) (cs : list CutItem) : Q :=
  foldr (fun c acc => (effective cut_kerf c + acc)%Q) 0%Q cs.

(** What is left of a bin is the stock length less what its cuts take. *)
Definition balanced (stock_length : Z) (cut_kerf : Q) (b : Bin) : Prop :=
  (remaining b == inject_Z stock_length - sum_effective cut_kerf (cuts b))%Q.




(** The remaining lengths of all the bins together. *)
Definition total_remaining (bins : list Bin) : Q :=
  foldr (fun b acc => (remaining b + acc)%Q) 0%Q bins.


(** [b'] is [b] after it received some of the items [todo], at its end. *)
Definition grows_by (todo : list CutItem) (b b' : Bin) : Prop :=
  exists more, cuts b' = cuts b ++ more /\ Forall (fun c => c ∈ todo) more.

(** Every cut of [b] is one of the items [todo]. *)
Definition filled_from (todo : list CutItem) (b : Bin) : Prop :=
  Forall (fun c => c ∈ todo) (cuts b).

(** The grouping the specification describes: a run of consecutive
    identical [(profile, length)] entries becomes one entry with its
    count. *)
Fixpoint group_consecutive (cs : list CutItem) : list (nat * CutItem) :=
  match cs with
  | [] => []
  | c :: cs' =>
      match group_consecutive cs' with
      | (n, c') :: gs =>
          if decide (c = c') then (S n, c) :: gs else (1%nat, c) :: (n, c') :: gs
      | [] => [(1%nat, c)]
      end
  end.

(** An entry with its count, as in ["2x Profile(3000mm)"]. *)
Definition grouped_entry (g : nat * CutItem) : string :=
  pretty g.1 +:+ "x " +:+ g.2.1 +:+ "(" +:+ pretty g.2.2 +:+ "mm)".

(** The cut details as the specification describes them. *)
Definition render_cuts_grouped (cs : list CutItem) : string :=
  String.concat " + " (grouped_entry <$> group_consecutive cs).

(** Every group written out again as single entries. *)
Definition ungroup (gs : list (nat * CutItem)) : list (nat * CutItem) :=
  flat_map (fun g => replicate g.1 (1%nat, g.2)) gs.

(** The text has no white space at either end. *)
Definition trimmed (s : string) : Prop :=
  (forall a r, s = String a r -> is_space a = false) /\
  (forall a r, s = r +:+ String a EmptyString -> is_space a = false).

(** The cell of a row under a header, as the program reads it: the
    stripped text of the last field whose header strips to [key], and the
    empty string when the row has no such field. *)
Definition stripped_cell (key : string) (row : Row) : string :=
  default ""
    (last (omap (fun kv : option string * pyval =>
                   if decide (safe_str (key_value kv.1) = key)
                   then Some (safe_str kv.2) else None) row)).

(** A row with every key and every value replaced by its stripped text. *)
Definition stripped_row (row : Row) : Row :=
  (fun kv => (Some (safe_str (key_value kv.1)), VStr (safe_str kv.2))) <$> row.

(** The distinct elements of a list, each where it comes first. *)
Definition first_seen (l : list string) : list string :=
  foldl (fun seen x => if decide (x ∈ seen) then seen else seen ++ [x]) [] l.

(** The parts of one profile, in the order of the list. *)
Definition of_profile (profile : string) (parts : list Part) : list Part :=
  filter (fun part : Part => part_profile part = profile) parts.

(** Every bin but the first was opened in need: what is left of any bin
    before it is less than the effective length of its first cut. *)
Definition opened_in_need (cut_kerf : Q) (bins : list Bin) : Prop :=
  forall i j bi bj,
    i < j -> bins !! i = Some bi -> bins !! j = Some bj ->
    exists c, head (cuts bj) = Some c /\
              (remaining bi < effective cut_kerf c)%Q.

(** The rows a profile group adds to the details table: its heading, then
    the pattern rows of its bins. *)
Definition details_of_group (stock_length : Z) (cut_kerf : Q)
    (g : string * list Part) : list DetailsRow :=
  Heading ["Profile: " +:+ g.1; ""; ""; ""]
  :: (Pattern <$>
        (generate_pattern_details_table
           (best_fit_cutting_stock g.2 stock_length cut_kerf) stock_length).1).

(** * Properties *)

(** ** Comparisons *)

Lemma Qltb_lt (x y : Q) : Qltb x y = true <-> (x < y)%Q.
Proof.
  unfold Qltb. rewrite negb_true_iff, <- not_true_iff_false, Qle_bool_iff.
  split; [apply Qnot_le_lt | apply Qlt_not_le].
Qed.

Lemma Qltb_ge (x y : Q) : Qltb x y = false <-> (y <= x)%Q.
Proof.
  unfold Qltb. rewrite negb_false_iff. apply Qle_bool_iff.
Qed.

(** ** The inner loop picks the first of the tightest bins that fit *)

Lemma scan_bins_best_so_far effective_length bins :
  forall seen st,
    best_so_far effective_length seen st ->
    best_so_far effective_length (seen ++ bins)
      (scan_bins effective_length (length seen) bins st).
Proof.
  induction bins as [|bin bins IH]; intros seen st Hst; simpl.
  - by rewrite app_nil_r.
  - replace (seen ++ bin :: bins) with ((seen ++ [bin]) ++ bins)
      by (by rewrite <- app_assoc).
    replace (S (length seen)) with (length (seen ++ [bin]))
      by (rewrite length_app; simpl; lia).
    apply IH. clear IH.
    destruct (Qle_bool effective_length (remaining bin)) eqn:Hfit.
    + apply Qle_bool_iff in Hfit.
      destruct st as [[i|] [r|]]; simpl in *; try done.
      * destruct Hst as (b & Hb & Hbfit & -> & Hmin).
        destruct (Qltb _ _) eqn:Hlt.
        -- apply Qltb_lt in Hlt.
           exists bin. split; [by rewrite lookup_app_r, Nat.sub_diag|].
           do 2 (split; [done|]).
           intros j b' Hj Hfit'.
           apply lookup_app_Some in Hj as [Hj|[Hge Hj]].
           ++ destruct (Hmin j b' Hj Hfit') as [Hle _]. split; [lra|]. intros _. lra.
           ++ destruct (j - length seen)%nat eqn:E; simpl in Hj; [|by destruct n].
              injection Hj as <-. split; [lra|]. lia.
        -- apply Qltb_ge in Hlt.
           exists b. split; [by apply lookup_app_l_Some|].
           do 2 (split; [done|]).
           intros j b' Hj Hfit'.
           apply lookup_app_Some in Hj as [Hj|[Hge Hj]]; [by apply Hmin|].
           destruct (j - length seen)%nat eqn:E; simpl in Hj; [|by destruct n].
           injection Hj as <-. split; [done|].
           intros Hlt'. apply lookup_lt_Some in Hb. lia.
      * exists bin. split; [by rewrite lookup_app_r, Nat.sub_diag|].
        do 2 (split; [done|]).
        intros j b' Hj Hfit'.
        apply lookup_app_Some in Hj as [Hj|[Hge Hj]]; [by destruct (Hst j b' Hj)|].
        destruct (j - length seen)%nat eqn:E; simpl in Hj; [|by destruct n].
        injection Hj as <-. split; [lra|]. lia.
    + assert (~ fits effective_length bin) as Hnofit.
      { unfold fits. rewrite <- Qle_bool_iff. congruence. }
      destruct st as [[i|] [r|]]; simpl in *; try done.
      * destruct Hst as (b & Hb & Hbfit & -> & Hmin).
        exists b. split; [by apply lookup_app_l_Some|].
        do 2 (split; [done|]).
        intros j b' Hj Hfit'.
        apply lookup_app_Some in Hj as [Hj|[Hge Hj]]; [by apply Hmin|].
        destruct (j - length seen)%nat eqn:E; simpl in Hj; [|by destruct n].
        by injection Hj as <-.
      * intros j b' Hj.
        apply lookup_app_Some in Hj as [Hj|[Hge Hj]]; [by eapply Hst|].
        destruct (j - length seen)%nat eqn:E; simpl in Hj; [|by destruct n].
        by injection Hj as <-.
Qed.

Lemma find_best_bin_Some effective_length bins i :
  find_best_bin effective_length bins = Some i ->
  exists b, bins !! i = Some b /\ fits effective_length b /\
    forall j b', bins !! j = Some b' -> fits effective_length b' ->
      (remaining b - effective_length <= remaining b' - effective_length)%Q /\
      (j < i ->
       (remaining b - effective_length < remaining b' - effective_length)%Q).
Proof.
  unfold find_best_bin. intros H.
  pose proof (scan_bins_best_so_far effective_length bins [] (None, Infinity)) as Hs.
  simpl in Hs. destruct (scan_bins _ _ _ _) as [[k|] [r|]]; simpl in *; try done.
  - injection H as ->. destruct Hs as (b & Hb & Hfit & -> & Hmin).
    + intros j b' Hj. by rewrite lookup_nil in Hj.
    + by exists b.
  - exfalso. apply Hs. intros j b' Hj. by rewrite lookup_nil in Hj.
Qed.

Lemma find_best_bin_None effective_length bins :
  find_best_bin effective_length bins = None ->
  forall b, b ∈ bins -> ~ fits effective_length b.
Proof.
  unfold find_best_bin. intros H b Hb.
  pose proof (scan_bins_best_so_far effective_length bins [] (None, Infinity)) as Hs.
  simpl in Hs. destruct (scan_bins _ _ _ _) as [[k|] [r|]]; simpl in *; try done.
  - exfalso. apply Hs. intros j b' Hj. by rewrite lookup_nil in Hj.
  - apply list_elem_of_lookup in Hb as [j Hj]. eapply Hs; [|done].
    intros j' b' Hj'. by rewrite lookup_nil in Hj'.
Qed.

(** ** One round of the outer loop *)

(** Either the item joins the bin the scan chose, which stays where it is,
    or no bin fits and a fresh bin goes to the end. *)
Lemma place_item_cases stock_length cut_kerf bins item :
  (exists l1 b l2,
      bins = l1 ++ b :: l2 /\
      find_best_bin (effective cut_kerf item) bins = Some (length l1) /\
      fits (effective cut_kerf item) b /\
      place_item stock_length cut_kerf bins item =
        l1 ++ add_cut (effective cut_kerf item) item b :: l2) \/
  ((forall b, b ∈ bins -> ~ fits (effective cut_kerf item) b) /\
   place_item stock_length cut_kerf bins item =
     bins ++ [new_bin stock_length (effective cut_kerf item) item]).
Proof.
  unfold place_item. fold (effective cut_kerf item).
  destruct (find_best_bin _ _) as [i|] eqn:Hbest.
  - left. destruct (find_best_bin_Some _ _ _ Hbest) as (b & Hb & Hfit & _).
    apply list_elem_of_split_length in Hb as (l1 & l2 & -> & ->).
    exists l1, b, l2. repeat split; try done.
    by rewrite <- (Nat.add_0_r (length l1)), alter_app_r.
  - right. split; [|done]. by apply find_best_bin_None.
Qed.

Section bin_invariant.
Context (stock_length : Z) (cut_kerf : Q).
Context (P : Bin -> Prop) (I : CutItem -> Prop).
Hypothesis P_new : forall item,
  I item -> P (new_bin stock_length (effective cut_kerf item) item).
Hypothesis P_add : forall item b,
  I item -> P b -> fits (effective cut_kerf item) b ->
  P (add_cut (effective cut_kerf item) item b).

Lemma place_item_Forall bins item :
  I item -> Forall P bins ->
  Forall P (place_item stock_length cut_kerf bins item).
Proof.
  intros HI HP.
  destruct (place_item_cases stock_length cut_kerf bins item)
    as [(l1 & b & l2 & -> & _ & Hfit & ->)|[_ ->]].
  - apply Forall_app in HP as [H1 H2]. apply Forall_cons in H2 as [Hb H2].
    apply Forall_app. split; [done|]. apply Forall_cons. split; [|done].
    by apply P_add.
  - apply Forall_app. split; [done|]. apply Forall_singleton. by apply P_new.
Qed.

Lemma foldl_place_item_Forall items :
  forall bins, Forall I items -> Forall P bins ->
    Forall P (foldl (place_item stock_length cut_kerf) bins items).
Proof.
  induction items as [|item items IH]; intros bins HI HP; simpl; [done|].
  apply Forall_cons in HI as [HI HIs].
  apply IH; [done|]. by apply place_item_Forall.
Qed.

Lemma pack_items_Forall items :
  Forall I items -> Forall P (pack_items stock_length cut_kerf items).
Proof. intros HI. by apply foldl_place_item_Forall. Qed.
End bin_invariant.

(** ** Sorting *)

Lemma insert_item_perm x l : insert_item x l ≡ₚ x :: l.
Proof.
  induction l as [|y l IH]; simpl; [done|].
  destruct (x.2 <? y.2)%Z; [|done].
  rewrite IH. apply perm_swap.
Qed.

Lemma sort_items_perm items : sort_items items ≡ₚ items.
Proof.
  induction items as [|x items IH]; simpl; [done|].
  rewrite insert_item_perm. by f_equiv.
Qed.

Lemma insert_item_sorted x l :
  StronglySorted longer_first l -> StronglySorted longer_first (insert_item x l).
Proof.
  induction 1 as [|y l Hl IH Hy]; simpl.
  - repeat constructor.
  - destruct (x.2 <? y.2)%Z eqn:E.
    + apply Z.ltb_lt in E. constructor; [done|].
      rewrite insert_item_perm. constructor; [unfold longer_first; lia|done].
    + apply Z.ltb_ge in E. constructor; [by constructor|].
      constructor; [done|].
      eapply Forall_impl; [exact Hy|]. unfold longer_first. intros; simpl in *. lia.
Qed.

Lemma sort_items_sorted items : StronglySorted longer_first (sort_items items).
Proof.
  induction items as [|x items IH]; simpl; [constructor|].
  by apply insert_item_sorted.
Qed.

Lemma insert_item_of_length k x l :
  StronglySorted longer_first l ->
  of_length k (insert_item x l) = of_length k (x :: l).
Proof.
  unfold of_length.
  induction 1 as [|y l Hl IH Hy]; simpl; [done|].
  destruct (x.2 <? y.2)%Z eqn:E; [|done].
  apply Z.ltb_lt in E.
  rewrite (filter_cons _ y (insert_item x l)), IH, !filter_cons.
  repeat case_decide; try done; lia.
Qed.

Lemma sort_items_of_length k items :
  of_length k (sort_items items) = of_length k items.
Proof.
  induction items as [|x items IH]; simpl; [done|].
  rewrite insert_item_of_length by apply sort_items_sorted.
  unfold of_length in *. rewrite !filter_cons, IH. done.
Qed.

(** ** Conservation of the items *)

Lemma all_cuts_app bins1 bins2 :
  all_cuts (bins1 ++ bins2) = all_cuts bins1 ++ all_cuts bins2.
Proof. unfold all_cuts. by rewrite fmap_app, concat_app. Qed.


Lemma place_item_all_cuts stock_length cut_kerf bins item :
  all_cuts (place_item stock_length cut_kerf bins item) ≡ₚ all_cuts bins ++ [item].
Proof.
  destruct (place_item_cases stock_length cut_kerf bins item)
    as [(l1 & b & l2 & -> & _ & _ & ->)|[_ ->]].
  - rewrite !all_cuts_app. unfold all_cuts at 2 4. simpl.
    fold (all_cuts l2). rewrite <- !app_assoc. f_equiv. f_equiv.
    apply Permutation_app_comm.
  - by rewrite all_cuts_app.
Qed.

Lemma foldl_place_item_all_cuts stock_length cut_kerf items :
  forall bins,
    all_cuts (foldl (place_item stock_length cut_kerf) bins items)
    ≡ₚ all_cuts bins ++ items.
Proof.
  induction items as [|item items IH]; intros bins; simpl.
  - by rewrite app_nil_r.
  - rewrite IH, place_item_all_cuts. by rewrite <- app_assoc.
Qed.

Lemma pack_items_all_cuts stock_length cut_kerf items :
  all_cuts (pack_items stock_length cut_kerf items) ≡ₚ items.
Proof. unfold pack_items. by rewrite foldl_place_item_all_cuts. Qed.

Lemma best_fit_all_cuts parts stock_length cut_kerf :
  all_cuts (best_fit_cutting_stock parts stock_length cut_kerf)
    ≡ₚ expand_items parts.
Proof.
  unfold best_fit_cutting_stock.
  by rewrite pack_items_all_cuts, sort_items_perm.
Qed.

Lemma count_item_replicate c c' n :
  count_item c (replicate n c') = if decide (c' = c) then n else 0%nat.
Proof.
  unfold count_item. induction n as [|n IH]; simpl.
  - by case_decide.
  - rewrite filter_cons. case_decide; simpl; by rewrite IH.
Qed.

Lemma count_item_expand_items c parts :
  count_item c (expand_items parts) = copies_of c parts.
Proof.
  unfold copies_of, expand_items.
  induction parts as [|p parts IH]; simpl; [done|].
  unfold count_item in *. rewrite filter_app, length_app, IH.
  f_equal. apply count_item_replicate.
Qed.

(** C1.  Conservation: the cuts of all the bins [best_fit_cutting_stock]
    returns are, as a multiset, the expanded items, and every pair
    [(profile, length)] occurs in them as often as the parts ask for it:
    each part gives [demand] copies of its pair.  No item is created,
    dropped or duplicated. *)
Theorem best_fit_conservation parts stock_length cut_kerf :
  all_cuts (best_fit_cutting_stock parts stock_length cut_kerf)
    ≡ₚ expand_items parts /\
  forall c, count_item c (all_cuts (best_fit_cutting_stock parts stock_length cut_kerf))
            = copies_of c parts.
Proof.
  pose proof (best_fit_all_cuts parts stock_length cut_kerf) as Hperm.
  split; [done|]. intros c.
  rewrite <- count_item_expand_items. unfold count_item. by rewrite Hperm.
Qed.

(** ** Capacity *)

Lemma sum_effective_snoc cut_kerf cs c :
  (sum_effective cut_kerf (cs ++ [c])
   == sum_effective cut_kerf cs + effective cut_kerf c)%Q.
Proof.
  induction cs as [|c' cs IH]; simpl; [lra|].
  fold (sum_effective cut_kerf (cs ++ [c])). fold (sum_effective cut_kerf cs). lra.
Qed.

Lemma new_bin_balanced stock_length cut_kerf item :
  balanced stock_length cut_kerf
    (new_bin stock_length (effective cut_kerf item) item).
Proof. unfold balanced. simpl. lra. Qed.

Lemma add_cut_balanced stock_length cut_kerf item b :
  balanced stock_length cut_kerf b ->
  balanced stock_length cut_kerf (add_cut (effective cut_kerf item) item b).
Proof.
  unfold balanced. simpl. intros H. rewrite sum_effective_snoc. lra.
Qed.

Lemma best_fit_balanced parts stock_length cut_kerf :
  Forall (balanced stock_length cut_kerf)
    (best_fit_cutting_stock parts stock_length cut_kerf).
Proof.
  unfold best_fit_cutting_stock.
  apply pack_items_Forall with (I := fun _ => True).
  - intros item _. apply new_bin_balanced.
  - intros item b _ Hb _. by apply add_cut_balanced.
  - by apply Forall_true.
Qed.

Lemma sum_effective_int (kerf : Z) (cs : list CutItem) :
  (sum_effective (inject_Z kerf) cs
   == inject_Z (sum_Z ((fun c : CutItem => c.2 + kerf)%Z <$> cs)))%Q.
Proof.
  induction cs as [|c cs IH]; [done|].
  rewrite fmap_cons. simpl sum_Z. rewrite !inject_Z_plus, <- IH.
  simpl. unfold effective. fold (sum_effective (inject_Z kerf) cs). lra.
Qed.







(** C3.  The worked example of the best-fit choice: a parts list of one
    profile that expands to the lengths 100, 90 and 50, with stock length
    150 and no kerf, gives two bins in the order they were opened: the cuts
    100 and 50 with nothing remaining, then the cut 90 with 60 remaining.
    The 50 goes to the first bin, where it leaves 0, not to the second,
    where it would leave 10. *)
Theorem best_fit_tie_break_example parts profile :
  expand_items parts = [(profile, 100%Z); (profile, 90%Z); (profile, 50%Z)] ->
  best_fit_cutting_stock parts 150 0
  = [ {| remaining := 0; cuts := [(profile, 100%Z); (profile, 50%Z)] |};
      {| remaining := 60; cuts := [(profile, 90%Z)] |} ].
Proof.
  intros Hitems. unfold best_fit_cutting_stock. rewrite Hitems.
  vm_compute. reflexivity.
Qed.

Lemma best_fit_tie_break_example_witness :
  best_fit_cutting_stock
    [mkPart "HEA200_S355" 100 1 (423 # 10); mkPart "HEA200_S355" 90 1 (423 # 10);
     mkPart "HEA200_S355" 50 1 (423 # 10)] 150 0
  = [ {| remaining := 0; cuts := [("HEA200_S355", 100%Z); ("HEA200_S355", 50%Z)] |};
      {| remaining := 60; cuts := [("HEA200_S355", 90%Z)] |} ].
Proof.
  apply (best_fit_tie_break_example
           [mkPart "HEA200_S355" 100 1 (423 # 10); mkPart "HEA200_S355" 90 1 (423 # 10);
            mkPart "HEA200_S355" 50 1 (423 # 10)] "HEA200_S355").
  reflexivity.
Defined.

(** ** Items longer than the stock *)


















(** ** The order of the items and of the bins *)

Lemma grows_by_refl todo b : grows_by todo b b.
Proof. exists []. by rewrite app_nil_r. Qed.

Lemma Forall2_grows_by_refl todo bins : Forall2 (grows_by todo) bins bins.
Proof. induction bins; constructor; [apply grows_by_refl|done]. Qed.

Lemma place_item_grows stock_length cut_kerf bins item :
  exists grown opened,
    place_item stock_length cut_kerf bins item = grown ++ opened /\
    Forall2 (grows_by [item]) bins grown /\
    Forall (filled_from [item]) opened.
Proof.
  destruct (place_item_cases stock_length cut_kerf bins item)
    as [(l1 & b & l2 & -> & _ & _ & ->)|[_ ->]].
  - exists (l1 ++ add_cut (effective cut_kerf item) item b :: l2), [].
    rewrite app_nil_r. split; [done|]. split; [|done].
    apply Forall2_app; [apply Forall2_grows_by_refl|].
    constructor; [|apply Forall2_grows_by_refl].
    exists [item]. split; [done|]. apply Forall_singleton, list_elem_of_here.
  - exists bins, [new_bin stock_length (effective cut_kerf item) item].
    split; [done|]. split; [apply Forall2_grows_by_refl|].
    apply Forall_singleton. apply Forall_singleton, list_elem_of_here.
Qed.

Lemma foldl_place_item_grows stock_length cut_kerf items :
  forall bins, exists grown opened,
    foldl (place_item stock_length cut_kerf) bins items = grown ++ opened /\
    Forall2 (grows_by items) bins grown /\
    Forall (filled_from items) opened.
Proof.
  induction items as [|item items IH]; intros bins; simpl.
  - exists bins, []. rewrite app_nil_r.
    split; [done|]. split; [apply Forall2_grows_by_refl|done].
  - destruct (place_item_grows stock_length cut_kerf bins item)
      as (g1 & o1 & Hplace & Hg1 & Ho1).
    destruct (IH (place_item stock_length cut_kerf bins item))
      as (g & o & -> & Hg & Ho).
    rewrite Hplace in Hg.
    apply Forall2_app_inv_l in Hg as (g2 & o2 & Hg2 & Ho2 & ->).
    exists g2, (o2 ++ o). rewrite <- app_assoc. split; [done|]. split.
    + clear -Hg1 Hg2. revert g2 Hg2.
      induction Hg1 as [|b b1 bins g1 Hb Hg1 IH]; intros g2 Hg2.
      * apply Forall2_nil_inv_l in Hg2 as ->. constructor.
      * apply Forall2_cons_inv_l in Hg2 as (b2 & g2' & Hb2 & Hg2 & ->).
        constructor; [|by apply IH].
        destruct Hb as (m1 & E1 & H1). destruct Hb2 as (m2 & E2 & H2).
        exists (m1 ++ m2). rewrite E2, E1, <- app_assoc. split; [done|].
        apply Forall_app. split.
        -- eapply Forall_impl; [exact H1|]. intros c Hc.
           apply list_elem_of_singleton in Hc as ->. apply list_elem_of_here.
        -- eapply Forall_impl; [exact H2|]. intros c Hc.
           by apply list_elem_of_further.
    + apply Forall_app. split.
      * clear -Ho1 Ho2. revert o2 Ho2.
        induction Ho1 as [|b o1 Hb Ho1 IH]; intros o2 Ho2.
        -- by apply Forall2_nil_inv_l in Ho2 as ->.
        -- apply Forall2_cons_inv_l in Ho2 as (b2 & o2' & Hb2 & Ho2 & ->).
           constructor; [|by apply IH].
           destruct Hb2 as (m2 & E2 & H2). unfold filled_from in *.
           rewrite E2. apply Forall_app. split.
           ++ eapply Forall_impl; [exact Hb|]. intros c Hc.
              apply list_elem_of_singleton in Hc as ->. apply list_elem_of_here.
           ++ eapply Forall_impl; [exact H2|]. intros c Hc.
              by apply list_elem_of_further.
      * eapply Forall_impl; [exact Ho|]. intros b Hb.
        unfold filled_from in *. eapply Forall_impl; [exact Hb|].
        intros c Hc. by apply list_elem_of_further.
Qed.

(** C8.  The order of packing: the items are packed longest first, items
    of one length in the order of the expansion (a stable sort), and the
    bins come out in the order they were opened.  For every number [n], the
    bins that exist after the first [n] sorted items are the first bins of
    the result, in the same order, each with further cuts only at its end
    and only from the later items; the bins behind them hold later items
    only. *)
Theorem best_fit_packing_order parts stock_length cut_kerf :
  sort_items (expand_items parts) ≡ₚ expand_items parts /\
  StronglySorted longer_first (sort_items (expand_items parts)) /\
  (forall k, of_length k (sort_items (expand_items parts))
             = of_length k (expand_items parts)) /\
  forall n, exists grown opened,
    best_fit_cutting_stock parts stock_length cut_kerf = grown ++ opened /\
    Forall2 (grows_by (drop n (sort_items (expand_items parts))))
      (pack_items stock_length cut_kerf (take n (sort_items (expand_items parts))))
      grown /\
    Forall (filled_from (drop n (sort_items (expand_items parts)))) opened.
Proof.
  split; [apply sort_items_perm|].
  split; [apply sort_items_sorted|].
  split; [intros k; apply sort_items_of_length|].
  intros n. unfold best_fit_cutting_stock, pack_items.
  pose proof (foldl_place_item_grows stock_length cut_kerf
                (drop n (sort_items (expand_items parts)))
                (foldl (place_item stock_length cut_kerf) []
                   (take n (sort_items (expand_items parts))))) as H.
  by rewrite <- foldl_app, take_drop in H.
Qed.

(** ** Ties between bins *)

(** C9.  A tie between bins: when the bin at position [j] fits the item,
    no fitting bin would be left with less, and every fitting bin before it
    would be left with more, the item goes into that bin.  So among the
    fitting bins that would be left with the same least remaining length,
    the one opened first gets the item: after the round the bin at [j] has
    the item as its last cut and its remaining length reduced by the
    effective length of the item, and every other bin is as it was. *)
Theorem best_fit_earliest_of_tightest stock_length cut_kerf done
    (item : CutItem) j b :
  pack_items stock_length cut_kerf done !! j = Some b ->
  (inject_Z item.2 + cut_kerf <= remaining b)%Q ->
  (forall j' b', pack_items stock_length cut_kerf done !! j' = Some b' ->
     (inject_Z item.2 + cut_kerf <= remaining b')%Q ->
     (remaining b - (inject_Z item.2 + cut_kerf)
      <= remaining b' - (inject_Z item.2 + cut_kerf))%Q) ->
  (forall j' b', pack_items stock_length cut_kerf done !! j' = Some b' ->
     (inject_Z item.2 + cut_kerf <= remaining b')%Q -> j' < j ->
     (remaining b - (inject_Z item.2 + cut_kerf)
      < remaining b' - (inject_Z item.2 + cut_kerf))%Q) ->
  exists b',
    pack_items stock_length cut_kerf (done ++ [item]) !! j = Some b' /\
    cuts b' = cuts b ++ [item] /\
    remaining b' = (remaining b - (inject_Z item.2 + cut_kerf))%Q /\
    length (pack_items stock_length cut_kerf (done ++ [item]))
    = length (pack_items stock_length cut_kerf done) /\
    forall i, i <> j ->
      pack_items stock_length cut_kerf (done ++ [item]) !! i
      = pack_items stock_length cut_kerf done !! i.
Proof.
  intros Hj Hfit Hmin Hfirst. unfold pack_items at 1 2 4. rewrite foldl_snoc.
  fold (pack_items stock_length cut_kerf done).
  set (bins := pack_items stock_length cut_kerf done) in *.
  unfold place_item.
  destruct (find_best_bin _ _) as [i|] eqn:Hbest.
  - destruct (find_best_bin_Some _ _ _ Hbest) as (bi & Hi & Hifit & Hbi).
    unfold fits in *.
    assert (i = j) as ->.
    { destruct (Nat.lt_trichotomy i j) as [Hlt|[->|Hlt]]; [|done|].
      - pose proof (Hfirst i bi Hi Hifit Hlt).
        destruct (Hbi j b Hj Hfit) as [Hle _]. lra.
      - destruct (Hbi j b Hj Hfit) as [_ Hlt']. specialize (Hlt' Hlt).
        pose proof (Hmin i bi Hi Hifit). lra. }
    eexists. split; [by rewrite list_lookup_alter, decide_True, Hj|].
    simpl. split; [done|]. split; [done|].
    split; [by rewrite length_alter|].
    intros i Hi'. by rewrite list_lookup_alter_ne.
  - exfalso. eapply find_best_bin_None; [exact Hbest| |exact Hfit].
    by eapply list_elem_of_lookup_2.
Qed.

Lemma best_fit_earliest_of_tightest_witness :
  exists b',
    pack_items 200 0
      ([("UPN80_S235", 150%Z); ("UPN80_S235", 120%Z); ("UPN80_S235", 120%Z)]
       ++ [("UPN80_S235", 60%Z)]) !! 1%nat = Some b' /\
    cuts b'
    = cuts {| remaining := 80; cuts := [("UPN80_S235", 120%Z)] |}
      ++ [("UPN80_S235", 60%Z)] /\
    remaining b'
    = (remaining {| remaining := 80; cuts := [("UPN80_S235", 120%Z)] |}
       - (inject_Z ("UPN80_S235", 60%Z).2 + 0))%Q /\
    length
      (pack_items 200 0
         ([("UPN80_S235", 150%Z); ("UPN80_S235", 120%Z); ("UPN80_S235", 120%Z)]
          ++ [("UPN80_S235", 60%Z)]))
    = length
        (pack_items 200 0
           [("UPN80_S235", 150%Z); ("UPN80_S235", 120%Z);
            ("UPN80_S235", 120%Z)]) /\
    forall i, i <> 1%nat ->
      pack_items 200 0
        ([("UPN80_S235", 150%Z); ("UPN80_S235", 120%Z); ("UPN80_S235", 120%Z)]
         ++ [("UPN80_S235", 60%Z)]) !! i
      = pack_items 200 0
          [("UPN80_S235", 150%Z); ("UPN80_S235", 120%Z);
           ("UPN80_S235", 120%Z)] !! i.
Proof.
  apply (best_fit_earliest_of_tightest 200 0
           [("UPN80_S235", 150%Z); ("UPN80_S235", 120%Z); ("UPN80_S235", 120%Z)]
           ("UPN80_S235", 60%Z) 1
           {| remaining := 80; cuts := [("UPN80_S235", 120%Z)] |}).
  - reflexivity.
  - unfold inject_Z; simpl; lra.
  - intros j' b' Hj' Hfit'. vm_compute in Hj'.
    destruct j' as [|[|[|j']]]; try discriminate; injection Hj' as <-;
      unfold inject_Z in *; simpl in *; lra.
  - intros j' b' Hj' Hfit' Hlt. vm_compute in Hj'.
    destruct j' as [|[|[|j']]]; try discriminate; try lia; injection Hj' as <-;
      unfold inject_Z in *; simpl in *; lra.
Defined.

(** ** The cut details of the pattern reporter *)

Lemma ungroup_group_consecutive cs :
  ungroup (group_consecutive cs) = (fun c => (1%nat, c)) <$> cs.
Proof.
  induction cs as [|c cs IH]; [done|].
  rewrite fmap_cons, <- IH. simpl.
  destruct (group_consecutive cs) as [|[n c'] gs]; [done|].
  case_decide as E; [by subst|done].
Qed.

Lemma cut_entry_grouped_entry c : cut_entry c = grouped_entry (1%nat, c).
Proof. reflexivity. Qed.

(** C4, as the code has it.  The pattern reporter does not group: the cut
    details of a bin list its cuts in order, one entry ["1x Profile(Lmm)"]
    for each cut, joined by [" + "].  They are the grouped details of the
    specification with every group of [n] identical cuts written out as [n]
    entries of count 1. *)
Theorem pattern_details_one_entry_per_cut bins stock_length :
  Forall2
    (fun b row =>
       cut_details row
       = String.concat " + "
           (grouped_entry <$> ungroup (group_consecutive (cuts b))))
    bins (generate_pattern_details_table bins stock_length).1.
Proof.
  unfold generate_pattern_details_table. simpl.
  apply Forall2_same_length_lookup. split; [by rewrite length_imap|].
  intros i b row Hb Hrow.
  rewrite list_lookup_imap, Hb in Hrow. injection Hrow as <-. simpl.
  unfold render_cuts. f_equal.
  rewrite ungroup_group_consecutive, <- list_fmap_compose.
  apply list_fmap_ext. intros _ c _. apply cut_entry_grouped_entry.
Qed.

(** C4, as the specification has it, fails: two identical cuts of 3000 mm
    in one bin are reported as two entries, not as ["2x Profile(3000mm)"]. *)
Lemma pattern_details_not_grouped :
  best_fit_cutting_stock [mkPart "Profile" 3000 2 (106 # 10)] 6000 0
  = [ {| remaining := 0; cuts := [("Profile", 3000%Z); ("Profile", 3000%Z)] |} ] /\
  cut_details <$>
    (generate_pattern_details_table
       (best_fit_cutting_stock [mkPart "Profile" 3000 2 (106 # 10)] 6000 0) 6000).1
  = ["1x Profile(3000mm) + 1x Profile(3000mm)"] /\
  render_cuts_grouped [("Profile", 3000%Z); ("Profile", 3000%Z)]
  = "2x Profile(3000mm)" /\
  ~ Forall2 (fun b row => cut_details row = render_cuts_grouped (cuts b))
      (best_fit_cutting_stock [mkPart "Profile" 3000 2 (106 # 10)] 6000 0)
      (generate_pattern_details_table
         (best_fit_cutting_stock [mkPart "Profile" 3000 2 (106 # 10)] 6000 0) 6000).1.
Proof.
  split; [by vm_compute|]. split; [by vm_compute|]. split; [by vm_compute|].
  intros H. vm_compute in H. inversion H as [|? ? ? ? Heq _]. discriminate Heq.
Qed.

(** ** The aggregate reporter *)

Lemma sum_effective_app cut_kerf cs1 cs2 :
  (sum_effective cut_kerf (cs1 ++ cs2)
   == sum_effective cut_kerf cs1 + sum_effective cut_kerf cs2)%Q.
Proof.
  induction cs1 as [|c cs1 IH]; simpl; [lra|].
  fold (sum_effective cut_kerf (cs1 ++ cs2)). fold (sum_effective cut_kerf cs1).
  lra.
Qed.

Lemma sum_effective_perm cut_kerf cs1 cs2 :
  cs1 ≡ₚ cs2 -> (sum_effective cut_kerf cs1 == sum_effective cut_kerf cs2)%Q.
Proof.
  induction 1 as [|c cs1 cs2 _ IH|c c' cs|cs1 cs2 cs3 _ IH1 _ IH2]; simpl.
  - lra.
  - fold (sum_effective cut_kerf cs1). fold (sum_effective cut_kerf cs2). lra.
  - fold (sum_effective cut_kerf cs). lra.
  - lra.
Qed.

Lemma total_remaining_balanced stock_length cut_kerf bins :
  Forall (balanced stock_length cut_kerf) bins ->
  (total_remaining bins
   == inject_Z (Z.of_nat (length bins) * stock_length)
      - sum_effective cut_kerf (all_cuts bins))%Q.
Proof.
  induction 1 as [|b bins Hb _ IH].
  - by vm_compute.
  - change (all_cuts (b :: bins)) with (cuts b ++ all_cuts bins).
    rewrite sum_effective_app.
    change (total_remaining (b :: bins))
      with (remaining b + total_remaining bins)%Q.
    rewrite IH. unfold balanced in Hb. rewrite Hb.
    replace (Z.of_nat (length (b :: bins)) * stock_length)%Z
      with (stock_length + Z.of_nat (length bins) * stock_length)%Z
      by (simpl length; lia).
    rewrite inject_Z_plus. lra.
Qed.

Lemma sum_effective_replicate cut_kerf n c :
  (sum_effective cut_kerf (replicate n c)
   == inject_Z (Z.of_nat n) * effective cut_kerf c)%Q.
Proof.
  induction n as [|n IH].
  - change (0 == 0 * effective cut_kerf c)%Q. lra.
  - change (sum_effective cut_kerf (replicate (S n) c))
      with (effective cut_kerf c + sum_effective cut_kerf (replicate n c))%Q.
    rewrite IH, Nat2Z.inj_succ. unfold Z.succ. rewrite inject_Z_plus.
    change (inject_Z 1) with 1%Q. ring.
Qed.

Lemma sum_effective_expand_items cut_kerf parts :
  Forall (fun p => (0 <= part_demand p)%Z) parts ->
  (sum_effective cut_kerf (expand_items parts)
   == inject_Z (effective_usage_mm parts)
      + cut_kerf * inject_Z (total_demand parts))%Q.
Proof.
  unfold effective_usage_mm, total_demand.
  induction 1 as [|p parts Hp _ IH].
  - change (0 == 0 + cut_kerf * 0)%Q. lra.
  - change (expand_items (p :: parts))
      with (replicate (Z.to_nat (part_demand p)) (part_profile p, part_length p)
            ++ expand_items parts).
    rewrite sum_effective_app, IH, sum_effective_replicate, Z2Nat.id by done.
    rewrite !fmap_cons. simpl sum_Z.
    rewrite !inject_Z_plus, inject_Z_mult. unfold effective. simpl. ring.
Qed.

(** The waste of the report is what the packer left in its bins: the kerf
    is counted once for every cut, as the packer does. *)
Lemma waste_mm_total_remaining parts stock_length cut_kerf :
  Forall (fun p => (0 <= part_demand p)%Z) parts ->
  (waste_mm parts (best_fit_cutting_stock parts stock_length cut_kerf)
     stock_length cut_kerf
   == total_remaining (best_fit_cutting_stock parts stock_length cut_kerf))%Q.
Proof.
  intros Hdemand.
  rewrite (total_remaining_balanced stock_length cut_kerf)
    by apply best_fit_balanced.
  rewrite (sum_effective_perm cut_kerf _ _
             (best_fit_all_cuts parts stock_length cut_kerf)).
  rewrite sum_effective_expand_items by done.
  unfold waste_mm, total_stock_consumed_mm, total_stocks_used.
  unfold Z.sub. rewrite inject_Z_plus, inject_Z_opp. lra.
Qed.

(** C6.  The waste of a group: for a parts list that is not empty the
    report has one row; it counts the bins, and its waste is
    [bin_count * stock_length - sum(length * quantity)
     - kerf * sum(quantity)], in millimetres, divided by 1000 in the row.
    For one part of length 100 and quantity 3 with stock length 100 and no
    kerf, the packer gives 3 bins and the report 3 stocks used, an effective
    usage of 300 mm and no waste. *)
Theorem final_report_waste :
  (forall p rest bins stock_length cut_kerf profile,
     exists row,
       generate_final_report (p :: rest) bins stock_length cut_kerf profile
       = Returns ([row], aggregate_headers) /\
       row_total_stocks_used row = length bins /\
       (waste_mm (p :: rest) bins stock_length cut_kerf
        == inject_Z (Z.of_nat (length bins) * stock_length)
           - inject_Z (sum_Z ((fun q => part_length q * part_demand q)%Z
                                <$> p :: rest))
           - cut_kerf * inject_Z (sum_Z (part_demand <$> p :: rest)))%Q /\
       (row_waste_m row
        == waste_mm (p :: rest) bins stock_length cut_kerf / 1000)%Q) /\
  (forall name weight profile,
     length (best_fit_cutting_stock [mkPart name 100 3 weight] 100 0) = 3%nat /\
     effective_usage_mm [mkPart name 100 3 weight] = 300%Z /\
     (waste_mm [mkPart name 100 3 weight]
        (best_fit_cutting_stock [mkPart name 100 3 weight] 100 0) 100 0 == 0)%Q /\
     exists row,
       generate_final_report [mkPart name 100 3 weight]
         (best_fit_cutting_stock [mkPart name 100 3 weight] 100 0) 100 0 profile
       = Returns ([row], aggregate_headers) /\
       row_total_stocks_used row = 3%nat /\
       (row_effective_usage_m row == 300 / 1000)%Q /\
       (row_waste_m row == 0)%Q).
Proof.
  split.
  - intros p rest bins stock_length cut_kerf profile.
    eexists. split; [reflexivity|]. split; [reflexivity|]. split; [|reflexivity].
    unfold waste_mm, total_stock_consumed_mm, total_stocks_used,
      effective_usage_mm, total_demand.
    unfold Z.sub. rewrite inject_Z_plus, inject_Z_opp. reflexivity.
  - intros name weight profile.
    split; [by vm_compute|]. split; [by vm_compute|]. split; [by vm_compute|].
    eexists. split; [reflexivity|]. split; [by vm_compute|].
    split; by vm_compute.
Qed.

(** C7.  The weights: the weight per metre is that of the first part.
    When it is positive, the three weights of the row are its three lengths
    in metres (stock consumed, effective usage, waste) times it; otherwise
    the three weights are zero.  With 2 kg/m, a stock length of 1000 mm and
    one bin, the weight of the order is 2 kg. *)
Theorem final_report_weight :
  (forall p rest bins stock_length cut_kerf profile,
     exists row,
       generate_final_report (p :: rest) bins stock_length cut_kerf profile
       = Returns ([row], aggregate_headers) /\
       row_weight_per_m row = part_weight p /\
       (((0 < part_weight p)%Q /\
         (row_total_order_weight_kg row
          == row_total_stock_consumed_m row * part_weight p)%Q /\
         (row_effective_weight_kg row
          == row_effective_usage_m row * part_weight p)%Q /\
         (row_waste_weight_kg row == row_waste_m row * part_weight p)%Q) \/
        ((part_weight p <= 0)%Q /\
         row_total_order_weight_kg row = 0%Q /\
         row_effective_weight_kg row = 0%Q /\
         row_waste_weight_kg row = 0%Q))) /\
  (forall name len demand rest bin cut_kerf profile,
     exists row,
       generate_final_report (mkPart name len demand 2 :: rest) [bin] 1000
         cut_kerf profile
       = Returns ([row], aggregate_headers) /\
       (row_total_order_weight_kg row == 2)%Q).
Proof.
  split.
  - intros p rest bins stock_length cut_kerf profile.
    eexists. split; [reflexivity|]. split; [reflexivity|]. simpl.
    unfold weight_of. destruct (Qltb 0 (part_weight p)) eqn:E.
    + left. apply Qltb_lt in E. by repeat split.
    + right. apply Qltb_ge in E. by repeat split.
  - intros name len demand rest bin cut_kerf profile.
    eexists. split; [reflexivity|]. by vm_compute.
Qed.

(** C10.  The aggregate reporter needs a part: on an empty parts list
    [parts[0]] raises [IndexError] and no row is returned, whatever the
    other arguments; on a parts list that is not empty it returns. *)
Theorem final_report_needs_a_part :
  (forall bins stock_length cut_kerf profile,
     generate_final_report [] bins stock_length cut_kerf profile
     = Raises IndexError) /\
  (forall p rest bins stock_length cut_kerf profile,
     exists table,
       generate_final_report (p :: rest) bins stock_length cut_kerf profile
       = Returns table).
Proof.
  split; [reflexivity|]. intros. eexists. reflexivity.
Qed.

(** * Further properties of the code *)

(** ** Decoding the upload *)

Lemma try_decode_file_app decode file_content before encodings :
  Forall (fun e => decode file_content e = UnicodeDecodeError) before ->
  try_decode_file decode file_content (before ++ encodings)
  = try_decode_file decode file_content encodings.
Proof.
  induction 1 as [|e before He _ IH]; simpl; [done|]. by rewrite He.
Qed.

(** X1.  [try_decode_file] returns the text of the first encoding of the
    list that decodes the content, with the name of that encoding: it
    returns [(text, encoding)] exactly when [encoding] stands in the list
    behind encodings that all fail with [UnicodeDecodeError], and decodes
    the content to [text]. *)
Theorem try_decode_file_first_success decode file_content encodings text encoding :
  try_decode_file decode file_content encodings = Decoded text encoding <->
  exists before after,
    encodings = before ++ encoding :: after /\
    Forall (fun e => decode file_content e = UnicodeDecodeError) before /\
    decode file_content encoding = Text text.
Proof.
  split.
  - induction encodings as [|e encodings IH]; simpl; [done|].
    destruct (decode file_content e) as [t| |name] eqn:He; [| |done].
    + intros [= -> ->]. by exists [], encodings.
    + intros H. destruct (IH H) as (before & after & -> & Hbefore & Henc).
      exists (e :: before), after. repeat split; [|done]. by constructor.
  - intros (before & after & -> & Hbefore & Henc).
    rewrite try_decode_file_app by done. simpl. by rewrite Henc.
Qed.

(** X2.  When no encoding is left, [try_decode_file] raises [TypeError],
    not the [UnicodeDecodeError] its last line names: this happens exactly
    when every encoding of the list fails with [UnicodeDecodeError], the
    empty list included. *)
Theorem try_decode_file_exhausted decode file_content encodings :
  try_decode_file decode file_content encodings = RaisesTypeError <->
  Forall (fun e => decode file_content e = UnicodeDecodeError) encodings.
Proof.
  induction encodings as [|e encodings IH]; simpl.
  - split; [constructor|done].
  - destruct (decode file_content e) as [t| |name] eqn:He.
    + split; [done|]. intros H. apply Forall_cons in H as [H _]. congruence.
    + rewrite IH. split; [by constructor|]. intros H.
      by apply Forall_cons in H as [_ H].
    + split; [done|]. intros H. apply Forall_cons in H as [H _]. congruence.
Qed.

(** X3.  The encodings [index] tries: when latin1 decodes the content,
    as it does every byte string, and [decode] with the selected encoding
    and with utf-8-sig returns or raises [UnicodeDecodeError], no other
    exception, the upload is decoded, and the encoding used is the selected
    one, utf-8-sig or latin1.  The two encodings behind latin1 are reached
    only when they are selected. *)
Theorem index_encodings_decode decode file_content selected_encoding latin :
  decode file_content "latin1" = Text latin ->
  (forall name, decode file_content "utf-8-sig" <> OtherError name) ->
  (forall name, decode file_content selected_encoding <> OtherError name) ->
  exists text encoding,
    try_decode_file decode file_content (index_encodings selected_encoding)
    = Decoded text encoding /\
    (encoding = selected_encoding \/ encoding = "utf-8-sig" \/ encoding = "latin1").
Proof.
  intros Hlatin Hutf Hsel. unfold index_encodings. simpl.
  destruct (decode file_content selected_encoding) as [t| |name] eqn:Es;
    [|clear Hsel|by destruct (Hsel name)].
  { exists t, selected_encoding. split; [done|]. by left. }
  unfold default_encodings. rewrite filter_cons.
  case_decide as E1; simpl.
  - destruct (decode file_content "utf-8-sig") as [t| |name] eqn:Eu;
      [| |by destruct (Hutf name)].
    + exists t, "utf-8-sig". split; [done|]. right. by left.
    + rewrite filter_cons. case_decide as E2; simpl.
      * rewrite Hlatin. exists latin, "latin1". split; [done|]. right. by right.
      * subst. congruence.
  - subst selected_encoding.
    rewrite filter_cons. rewrite decide_True by done. simpl.
    rewrite Hlatin. exists latin, "latin1". split; [done|]. right. by right.
Qed.

Lemma index_encodings_decode_witness :
  exists text encoding,
    try_decode_file
      (fun _ e => if String.eqb e "latin1" then Text "Size;Grade"
                  else if String.eqb e "undefined" then OtherError "UnicodeError"
                  else UnicodeDecodeError)
      [Byte.xff] (index_encodings "windows-1252")
    = Decoded text encoding /\
    (encoding = "windows-1252" \/ encoding = "utf-8-sig" \/ encoding = "latin1").
Proof.
  apply (index_encodings_decode
           (fun _ e => if String.eqb e "latin1" then Text "Size;Grade"
                       else if String.eqb e "undefined"
                            then OtherError "UnicodeError"
                       else UnicodeDecodeError)
           [Byte.xff] "windows-1252" "Size;Grade").
  - reflexivity.
  - intros name. simpl. discriminate.
  - intros name. simpl. discriminate.
Defined.

(** ** Stripped cells *)

Lemma lstrip_head s a r : lstrip s = String a r -> is_space a = false.
Proof.
  induction s as [|b s IH]; simpl; [done|].
  destruct (is_space b) eqn:E; [done|]. by intros [= <- _].
Qed.

Lemma lstrip_id s :
  (forall a r, s = String a r -> is_space a = false) -> lstrip s = s.
Proof.
  destruct s as [|a s]; simpl; [done|]. intros H. by rewrite (H a s).
Qed.

Lemma rstrip_head s a r : rstrip s = String a r -> exists s', s = String a s'.
Proof.
  destruct s as [|b s]; simpl; [done|].
  destruct (rstrip s); [destruct (is_space b)|]; [done| |];
    intros [= <- _]; by eexists.
Qed.

Lemma rstrip_last s : forall a r,
  rstrip s = r +:+ String a EmptyString -> is_space a = false.
Proof.
  induction s as [|b s IH]; intros a r; simpl.
  - by destruct r.
  - destruct (rstrip s) as [|c t] eqn:E.
    + destruct (is_space b) eqn:Eb; [by destruct r|].
      destruct r as [|b' [|? ?]]; simpl; [by intros [= <-]|done|done].
    + destruct r as [|b' r]; simpl; [done|].
      intros [= <- H]. by apply (IH a r).
Qed.

Lemma rstrip_rstrip s : rstrip (rstrip s) = rstrip s.
Proof.
  induction s as [|b s IH]; simpl; [done|].
  destruct (rstrip s) as [|c t] eqn:E.
  - destruct (is_space b) eqn:Eb; simpl; [done|]. by rewrite Eb.
  - change (rstrip (String b (String c t)))
      with (match rstrip (String c t) with
            | EmptyString =>
                if is_space b then EmptyString else String b EmptyString
            | r => String b r
            end).
    by rewrite IH.
Qed.

Lemma strip_trimmed s : trimmed (strip s).
Proof.
  unfold strip. split.
  - intros a r H. destruct (rstrip_head _ _ _ H) as [s' Hs'].
    by apply (lstrip_head s a s').
  - intros a r H. by apply (rstrip_last (lstrip s) a r).
Qed.

Lemma strip_id s : trimmed s -> strip s = s.
Proof.
  intros [Hl Hr]. unfold strip. rewrite (lstrip_id s Hl).
  clear Hl. revert Hr. induction s as [|b s IH]; intros Hr; simpl; [done|].
  rewrite IH.
  - destruct s as [|c s]; [|done].
    by rewrite (Hr b EmptyString).
  - intros a r ->. by apply (Hr a (String b r)).
Qed.

Lemma strip_strip s : strip (strip s) = strip s.
Proof. apply strip_id, strip_trimmed. Qed.

Lemma safe_str_trimmed : forall val, trimmed (safe_str val).
Proof.
  fix IH 1. intros [|s|[|v l]]; simpl.
  - by split; intros a [|? ?].
  - apply strip_trimmed.
  - by split; intros a [|? ?].
  - apply IH.
Qed.

(** X4.  [safe_str] gives stripped text: whatever the value, the result
    has no white space at either end, so stripping it again, as
    [safe_str] would, changes nothing; [None] and the empty list give the
    empty string, and a list gives what its first element gives. *)
Theorem safe_str_stripped val :
  trimmed (safe_str val) /\
  safe_str (VStr (safe_str val)) = safe_str val /\
  safe_str VNone = "" /\ safe_str (VList []) = "" /\
  forall l, safe_str (VList (val :: l)) = safe_str val.
Proof.
  split; [apply safe_str_trimmed|].
  split; [simpl; apply strip_id, safe_str_trimmed|]. by repeat split.
Qed.

(** ** The rows of the parts file *)

Section rows.
Variable int_of_str : string -> option Z.
Variable float_of_str : string -> option Q.
Variable DictReader : string -> option (list Row).

Lemma parts_of_rows_omap rows :
  parts_of_rows int_of_str float_of_str rows
  = omap (part_of_row int_of_str float_of_str) rows.
Proof.
  unfold parts_of_rows.
  cut (forall parts,
         foldl (fun parts row =>
                  match part_of_row int_of_str float_of_str row with
                  | Some part => parts ++ [part]
                  | None => parts
                  end) parts rows
         = parts ++ omap (part_of_row int_of_str float_of_str) rows).
  { intros H. by rewrite H. }
  induction rows as [|row rows IH]; intros parts; simpl.
  - by rewrite app_nil_r.
  - rewrite IH. destruct (part_of_row _ _ row); [|done].
    by rewrite <- app_assoc.
Qed.

Lemma row_stripped_Forall (P : string -> string -> Prop) (row : Row) :
  (forall kv, kv ∈ row -> P (safe_str (key_value kv.1)) (safe_str kv.2)) ->
  map_Forall P (row_stripped row).
Proof.
  unfold row_stripped.
  cut (forall m : gmap string string,
         map_Forall P m ->
         (forall kv, kv ∈ row -> P (safe_str (key_value kv.1)) (safe_str kv.2)) ->
         map_Forall P
           (foldl (fun m kv => <[safe_str (key_value kv.1) := safe_str kv.2]> m)
              m row)).
  { intros H Hrow. apply H; [apply map_Forall_empty|done]. }
  induction row as [|kv row IH]; intros m Hm Hrow; simpl; [done|].
  apply IH.
  - apply map_Forall_insert_2; [|done]. apply Hrow, list_elem_of_here.
  - intros kv' Hkv'. by apply Hrow, list_elem_of_further.
Qed.

Lemma part_of_row_Some row part :
  part_of_row int_of_str float_of_str row = Some part ->
  (0 < part_length part)%Z /\ (0 < part_demand part)%Z /\
  part_profile part
  = default "" (row_stripped row !! "Size") +:+ "_"
    +:+ default "" (row_stripped row !! "Grade") /\
  part_profile part <> "_".
Proof.
  unfold part_of_row.
  destruct (negb _); [done|].
  destruct (String.eqb _ "" || String.eqb _ "_") eqn:Eprofile; [done|].
  destruct (int_field _ _ "Length(mm)") as [length_val|]; [|done].
  destruct (int_field _ _ "Quantity") as [demand_val|]; [|done].
  destruct (float_field _ _ _) as [weight_per_m|]; [|done].
  destruct ((length_val <=? 0)%Z || (demand_val <=? 0)%Z) eqn:Epos; [done|].
  intros [= <-]. simpl.
  apply orb_false_iff in Epos as [Hl Hd].
  apply Z.leb_gt in Hl, Hd.
  apply orb_false_iff in Eprofile as [_ Hp].
  apply String.eqb_neq in Hp. done.
Qed.

(** X5.  Only rows with a positive length and a positive quantity become
    parts: when [read_csv_parts] returns a list, every part of it has
    [length > 0] and [quantity > 0]; it returns [None] only when reading
    the rows raised. *)
Theorem read_csv_parts_positive csv_content :
  match read_csv_parts int_of_str float_of_str DictReader csv_content with
  | Some parts =>
      Forall (fun part => (0 < part_length part)%Z /\ (0 < part_demand part)%Z)
        parts
  | None => DictReader csv_content = None
  end.
Proof.
  unfold read_csv_parts. destruct (DictReader csv_content) as [rows|]; [|done].
  rewrite parts_of_rows_omap. apply Forall_forall. intros part Hpart.
  apply list_elem_of_omap in Hpart as (row & _ & Hrow).
  destruct (part_of_row_Some row part Hrow) as (Hl & Hd & _). done.
Qed.

Lemma row_stripped_snoc (row : Row) kv :
  row_stripped (row ++ [kv])
  = <[safe_str (key_value kv.1) := safe_str kv.2]> (row_stripped row).
Proof. unfold row_stripped. by rewrite foldl_snoc. Qed.

Lemma row_stripped_lookup (row : Row) key :
  default "" (row_stripped row !! key) = stripped_cell key row.
Proof.
  unfold stripped_cell. f_equal.
  induction row as [|kv row IH] using rev_ind; [done|].
  rewrite row_stripped_snoc, omap_app. simpl omap.
  case_decide as E.
  - rewrite E, lookup_insert_eq. by rewrite last_snoc.
  - rewrite lookup_insert_ne by done. by rewrite app_nil_r.
Qed.

(** X6.  The profile of a part: every part [read_csv_parts] returns comes
    from a row of the file and has the profile [Size_Grade], where [Size]
    and [Grade] are the cells of that row under the headers that strip to
    ["Size"] and ["Grade"], stripped, or empty where the row has no such
    cell; the two have no white space at their ends and are not both empty,
    so the profile is never ["_"]. *)
Theorem read_csv_parts_profile csv_content :
  match DictReader csv_content with
  | Some rows =>
      exists parts,
        read_csv_parts int_of_str float_of_str DictReader csv_content
        = Some parts /\
        Forall (fun part =>
                  exists row,
                    row ∈ rows /\
                    part_of_row int_of_str float_of_str row = Some part /\
                    part_profile part
                    = stripped_cell "Size" row +:+ "_"
                      +:+ stripped_cell "Grade" row /\
                    trimmed (stripped_cell "Size" row) /\
                    trimmed (stripped_cell "Grade" row) /\
                    (stripped_cell "Size" row, stripped_cell "Grade" row)
                    <> (EmptyString, EmptyString))
          parts
  | None =>
      read_csv_parts int_of_str float_of_str DictReader csv_content = None
  end.
Proof.
  unfold read_csv_parts. destruct (DictReader csv_content) as [rows|]; [|done].
  eexists. split; [done|].
  rewrite parts_of_rows_omap. apply Forall_forall. intros part Hpart.
  apply list_elem_of_omap in Hpart as (row & Hin & Hrow).
  destruct (part_of_row_Some row part Hrow) as (_ & _ & Hprofile & Hne).
  rewrite !row_stripped_lookup in Hprofile.
  assert (forall key, trimmed (stripped_cell key row)) as Htrim.
  { intros key. rewrite <- row_stripped_lookup.
    pose proof (row_stripped_Forall (fun _ s => trimmed s) row) as H.
    destruct (row_stripped row !! key) as [cell|] eqn:E; simpl.
    - eapply H; [|exact E]. intros kv _. apply safe_str_trimmed.
    - by split; intros a [|? ?]. }
  exists row. split; [done|]. split; [done|]. split; [exact Hprofile|].
  split; [apply Htrim|]. split; [apply Htrim|].
  intros [= Hs Hg]. rewrite Hs, Hg in Hprofile. done.
Qed.

Lemma row_stripped_stripped_row row :
  row_stripped (stripped_row row) = row_stripped row.
Proof.
  unfold row_stripped, stripped_row.
  generalize (∅ : gmap string string).
  induction row as [|kv row IH]; intros m; [done|].
  rewrite fmap_cons. simpl foldl. rewrite IH. do 2 f_equal; simpl.
  - apply strip_id, safe_str_trimmed.
  - apply strip_id, safe_str_trimmed.
Qed.

Lemma safe_str_falsy val : truthy val = false -> safe_str val = "".
Proof. by destruct val as [|[|? ?]|[|? ?]]. Qed.

(** A row without a true cell has no size and no grade. *)
Lemma blank_row_profile (row : Row) :
  (forall kv, kv ∈ row -> safe_str kv.2 = "") ->
  default "" (row_stripped row !! "Size") +:+ "_"
  +:+ default "" (row_stripped row !! "Grade") = "_".
Proof.
  intros Hblank.
  assert (forall key, default "" (row_stripped row !! key) = "") as H.
  { intros key.
    pose proof (row_stripped_Forall (fun _ s => s = "") row) as H.
    destruct (row_stripped row !! key) as [cell|] eqn:E; simpl; [|done].
    eapply H; [|exact E]. intros kv Hkv. by apply Hblank. }
  by rewrite !H.
Qed.

Lemma existsb_truthy_false (row : Row) :
  existsb truthy row.*2 = false ->
  forall kv, kv ∈ row -> truthy kv.2 = false.
Proof.
  intros H kv Hkv.
  destruct (truthy kv.2) eqn:E; [|done].
  rewrite <- H. symmetry. apply existsb_exists. exists kv.2. split; [|done].
  apply list_elem_of_In, list_elem_of_fmap. by exists kv.
Qed.

(** X7.  The cells count only as [safe_str] reads them: replacing every
    key and every cell of a row by its stripped text does not change the
    part the row gives.  The test for a row of empty cells at the head of
    the loop decides nothing that the test of the profile would not. *)
Theorem part_of_row_stripped_row row :
  part_of_row int_of_str float_of_str (stripped_row row)
  = part_of_row int_of_str float_of_str row.
Proof.
  assert (forall r : Row,
            existsb truthy r.*2 = false ->
            String.eqb (default "" (row_stripped r !! "Size") +:+ "_"
                        +:+ default "" (row_stripped r !! "Grade")) "_" = true)
    as Hblank.
  { intros r Hr. apply String.eqb_eq, blank_row_profile.
    intros kv Hkv. apply safe_str_falsy. by apply (existsb_truthy_false r). }
  unfold part_of_row. rewrite row_stripped_stripped_row.
  destruct (existsb truthy (stripped_row row).*2) eqn:E1;
    destruct (existsb truthy row.*2) eqn:E2; simpl; try done.
  - by rewrite (Hblank row E2), orb_true_r.
  - pose proof (Hblank _ E1) as H. rewrite row_stripped_stripped_row in H.
    by rewrite H, orb_true_r.
Qed.

End rows.

(** ** Grouping by profile *)

Lemma first_seen_snoc l x :
  first_seen (l ++ [x])
  = if decide (x ∈ first_seen l) then first_seen l else first_seen l ++ [x].
Proof. unfold first_seen. by rewrite foldl_snoc. Qed.

Lemma first_seen_elem_of l x : x ∈ first_seen l <-> x ∈ l.
Proof.
  induction l as [|y l IH] using rev_ind.
  - done.
  - rewrite first_seen_snoc, elem_of_app, list_elem_of_singleton, <- IH.
    case_decide as E.
    + split; [by left|]. intros [H| ->]; done.
    + by rewrite elem_of_app, list_elem_of_singleton.
Qed.

Lemma first_seen_NoDup l : NoDup (first_seen l).
Proof.
  induction l as [|y l IH] using rev_ind; [constructor|].
  rewrite first_seen_snoc. case_decide as E; [done|].
  apply NoDup_app. split; [done|]. split; [|apply NoDup_singleton].
  intros z Hz Hz'. apply list_elem_of_singleton in Hz'. by subst.
Qed.

Lemma add_to_profile_fmap part (f : string -> list Part) keys :
  NoDup keys ->
  add_to_profile part ((fun k => (k, f k)) <$> keys)
  = ((fun k => (k, if decide (part_profile part = k) then f k ++ [part]
                   else f k)) <$> keys)
    ++ (if decide (part_profile part ∈ keys) then []
        else [(part_profile part, [part])]).
Proof.
  induction 1 as [|k keys Hk Hkeys IH]; csimpl.
  - done.
  - destruct (String.eqb (part_profile part) k) eqn:E.
    + apply String.eqb_eq in E. subst k.
      rewrite decide_True by done.
      rewrite (decide_True (P := _ ∈ _ :: _)) by apply list_elem_of_here.
      rewrite app_nil_r. f_equal.
      apply list_fmap_ext. intros i k' Hk'.
      rewrite decide_False; [done|]. intros <-.
      apply Hk. by eapply list_elem_of_lookup_2.
    + apply String.eqb_neq in E. rewrite decide_False by done.
      rewrite IH. simpl. f_equal. f_equal.
      repeat case_decide; try done.
      * exfalso. apply H0. by apply list_elem_of_further.
      * exfalso. apply elem_of_cons in H0 as [?|?]; done.
Qed.

Lemma group_by_profile_snoc parts part :
  group_by_profile (parts ++ [part])
  = add_to_profile part (group_by_profile parts).
Proof. unfold group_by_profile. by rewrite foldl_snoc. Qed.

Lemma of_profile_nil profile parts :
  profile ∉ part_profile <$> parts -> of_profile profile parts = [].
Proof.
  unfold of_profile. induction parts as [|part parts IH]; [done|].
  rewrite fmap_cons, not_elem_of_cons. intros [Hne Hnotin].
  rewrite filter_cons, decide_False by done. by apply IH.
Qed.

Lemma of_profile_snoc profile parts part :
  of_profile profile (parts ++ [part])
  = if decide (part_profile part = profile) then of_profile profile parts ++ [part]
    else of_profile profile parts.
Proof.
  unfold of_profile. rewrite filter_app, filter_cons, filter_nil.
  case_decide; by rewrite ?app_nil_r.
Qed.

Lemma group_by_profile_eq parts :
  group_by_profile parts
  = (fun k => (k, of_profile k parts)) <$> first_seen (part_profile <$> parts).
Proof.
  induction parts as [|part parts IH] using rev_ind; [done|].
  rewrite group_by_profile_snoc, IH, fmap_app.
  change (part_profile <$> [part]) with [part_profile part].
  rewrite first_seen_snoc.
  rewrite add_to_profile_fmap by apply first_seen_NoDup.
  simpl. case_decide as E.
  - rewrite app_nil_r. apply list_fmap_ext. intros _ k _.
    by rewrite of_profile_snoc.
  - rewrite fmap_app. simpl. f_equal.
    + apply list_fmap_ext. intros _ k _. by rewrite of_profile_snoc.
    + rewrite of_profile_snoc, decide_True by done.
      rewrite first_seen_elem_of in E. by rewrite (of_profile_nil _ _ E).
Qed.

Lemma add_to_profile_concat part groups :
  concat (add_to_profile part groups).*2 ≡ₚ concat groups.*2 ++ [part].
Proof.
  induction groups as [|[profile group] groups IH]; simpl; [done|].
  destruct (String.eqb _ _); csimpl.
  - rewrite <- !app_assoc. f_equiv. apply Permutation_app_comm.
  - by rewrite IH, app_assoc.
Qed.

Lemma group_by_profile_concat parts :
  concat (group_by_profile parts).*2 ≡ₚ parts.
Proof.
  induction parts as [|part parts IH] using rev_ind; [done|].
  by rewrite group_by_profile_snoc, add_to_profile_concat, IH.
Qed.

Lemma group_by_profile_groups parts :
  Forall (fun g => g.2 <> [] /\ Forall (fun part => part_profile part = g.1) g.2)
    (group_by_profile parts).
Proof.
  rewrite group_by_profile_eq. apply Forall_fmap, Forall_forall.
  intros k Hk. simpl. split.
  - apply first_seen_elem_of, list_elem_of_fmap in Hk as (part & -> & Hpart).
    intros Hnil. eapply (filter_nil_not_elem_of _ _ part); done.
  - unfold of_profile. apply Forall_forall. intros part Hpart.
    by apply list_elem_of_filter in Hpart as [? _].
Qed.

Lemma group_by_profile_keys parts :
  (group_by_profile parts).*1 = first_seen (part_profile <$> parts).
Proof.
  rewrite group_by_profile_eq.
  induction (first_seen (part_profile <$> parts)) as [|k keys IH]; [done|].
  csimpl. by rewrite IH.
Qed.

(** X8.  Grouping by profile: [index] makes one group for each distinct
    profile, in the order in which the profiles first occur; a group holds
    the parts of its profile, all of them, in the order of the parts list.
    So no profile has two groups, no group is empty, and the groups together
    hold every part once. *)
Theorem group_by_profile_partition parts :
  group_by_profile parts
  = ((fun k => (k, of_profile k parts)) <$> first_seen (part_profile <$> parts)) /\
  NoDup (group_by_profile parts).*1 /\
  Forall (fun g => g.2 <> [] /\ Forall (fun part => part_profile part = g.1) g.2)
    (group_by_profile parts) /\
  concat (group_by_profile parts).*2 ≡ₚ parts.
Proof.
  split; [apply group_by_profile_eq|].
  split; [|split; [apply group_by_profile_groups|apply group_by_profile_concat]].
  rewrite group_by_profile_keys. apply first_seen_NoDup.
Qed.

(** ** From the parts to the tables *)

Lemma profile_or_group profile part :
  part_profile part = profile -> profile_or (Some profile) part = profile.
Proof.
  intros Hp. simpl. by destruct (String.eqb _ _).
Qed.

Lemma process_groups_rows stock_length cut_kerf groups :
  Forall (fun g => g.2 <> [] /\ Forall (fun part => part_profile part = g.1) g.2)
    groups ->
  forall t, exists t' rows,
    process_groups stock_length cut_kerf t groups = Returns t' /\
    all_final_data t' = all_final_data t ++ rows /\
    Forall2
      (fun g row =>
         row_profile row = g.1 /\
         row_total_stocks_used row
         = length (best_fit_cutting_stock g.2 stock_length cut_kerf) /\
         Some (row_weight_per_m row) = part_weight <$> head g.2)
      groups rows.
Proof.
  induction 1 as [|[profile group] groups [Hne Hprofile] _ IH]; intros t.
  - exists t, []. rewrite app_nil_r. by repeat split.
  - simpl in Hne, Hprofile. destruct group as [|part group]; [done|].
    apply Forall_cons in Hprofile as [Hpart _].
    simpl process_groups. unfold process_group.
    simpl generate_final_report. unfold generate_pattern_details_table.
    cbv beta iota zeta.
    match goal with
    | |- context [process_groups _ _ ?t1 groups] =>
        destruct (IH t1) as (t' & rows & Hrun & Hdata & Hrows)
    end.
    eexists t', (_ :: rows). split; [exact Hrun|].
    split; [rewrite Hdata; simpl; by rewrite <- app_assoc|].
    constructor; [|done]. simpl.
    split; [by apply profile_or_group|done].
Qed.

(** X9.  From the parts to the tables: whatever the parts, the loop over
    the profile groups of [index] never ends in the [IndexError] of
    [generate_final_report], since no group is empty.  The aggregate table
    gets one row for each distinct profile, in the order in which the
    profiles first occur: the row of a group names its profile, counts the
    bins the packer returns for the group and carries the weight per metre
    of the first part of the group. *)
Theorem build_tables_rows parts stock_length cut_kerf :
  build_tables parts stock_length cut_kerf <> Raises IndexError /\
  exists t,
    build_tables parts stock_length cut_kerf = Returns t /\
    Forall2
      (fun g row =>
         row_profile row = g.1 /\
         row_total_stocks_used row
         = length (best_fit_cutting_stock g.2 stock_length cut_kerf) /\
         Some (row_weight_per_m row) = part_weight <$> head g.2)
      (group_by_profile parts) (all_final_data t) /\
    row_profile <$> all_final_data t = first_seen (part_profile <$> parts).
Proof.
  unfold build_tables.
  destruct (process_groups_rows stock_length cut_kerf (group_by_profile parts)
              (group_by_profile_groups parts)
              {| all_final_data := []; all_details_data := [];
                 final_headers := None; details_headers := None |})
    as (t & rows & Hrun & Hdata & Hrows).
  split; [by rewrite Hrun|].
  simpl in Hdata. subst rows. exists t. split; [done|]. split; [done|].
  assert (row_profile <$> all_final_data t = (group_by_profile parts).*1) as ->.
  { clear Hrun. induction Hrows as [|g row groups rows [Hg _] _ IH]; [done|].
    csimpl. by rewrite Hg, IH. }
  apply group_by_profile_keys.
Qed.

(** ** More on the bins of the packer *)

Lemma pack_items_nonempty stock_length cut_kerf items :
  Forall (fun b => cuts b <> []) (pack_items stock_length cut_kerf items).
Proof.
  apply pack_items_Forall with (I := fun _ => True).
  - done.
  - intros item b _ _ _. simpl. by destruct (cuts b).
  - by apply Forall_true.
Qed.

Lemma length_all_cuts bins :
  Forall (fun b => cuts b <> []) bins -> length bins <= length (all_cuts bins).
Proof.
  induction 1 as [|b bins Hb _ IH]; [done|].
  change (all_cuts (b :: bins)) with (cuts b ++ all_cuts bins).
  rewrite length_app. destruct (cuts b); [done|]. simpl. lia.
Qed.

(** X10.  No bin is empty, and the packer never uses more bins than there
    are items: it returns no bin at all exactly when the parts expand to no
    item. *)
Theorem best_fit_bins_nonempty parts stock_length cut_kerf :
  Forall (fun b => cuts b <> [])
    (best_fit_cutting_stock parts stock_length cut_kerf) /\
  length (best_fit_cutting_stock parts stock_length cut_kerf)
    <= length (expand_items parts) /\
  (best_fit_cutting_stock parts stock_length cut_kerf = []
   <-> expand_items parts = []).
Proof.
  pose proof (best_fit_all_cuts parts stock_length cut_kerf) as Hperm.
  assert (Forall (fun b => cuts b <> [])
            (best_fit_cutting_stock parts stock_length cut_kerf)) as Hne
    by apply pack_items_nonempty.
  split; [done|]. split.
  - rewrite <- Hperm. by apply length_all_cuts.
  - split.
    + intros E. rewrite E in Hperm. by apply Permutation_nil_l in Hperm.
    + intros E. rewrite E in Hperm. apply Permutation_nil_r in Hperm.
      apply length_all_cuts in Hne. rewrite Hperm in Hne.
      destruct (best_fit_cutting_stock _ _ _); [done|]. simpl in Hne. lia.
Qed.

Lemma StronglySorted_snoc {A} (R : A -> A -> Prop) l x :
  StronglySorted R l -> Forall (fun y => R y x) l -> StronglySorted R (l ++ [x]).
Proof.
  induction 1 as [|y l Hl IH Hy]; intros Hx; simpl.
  - repeat constructor.
  - apply Forall_cons in Hx as [Hyx Hx]. constructor; [by apply IH|].
    apply Forall_app. split; [done|]. by apply Forall_singleton.
Qed.

Lemma foldl_place_item_descending stock_length cut_kerf items :
  StronglySorted longer_first items ->
  forall bins,
    Forall (fun b => StronglySorted longer_first (cuts b) /\
                     Forall (fun c => Forall (longer_first c) items) (cuts b))
      bins ->
    Forall (fun b => StronglySorted longer_first (cuts b))
      (foldl (place_item stock_length cut_kerf) bins items).
Proof.
  induction 1 as [|item items Hitems IH Hitem]; intros bins Hbins; simpl.
  - eapply Forall_impl; [exact Hbins|]. by intros b [? _].
  - apply IH.
    assert (forall b,
              StronglySorted longer_first (cuts b) /\
              Forall (fun c => Forall (longer_first c) (item :: items)) (cuts b) ->
              StronglySorted longer_first (cuts b) /\
              Forall (fun c => Forall (longer_first c) items) (cuts b)) as Hweak.
    { intros b [Hs Hc]. split; [done|].
      eapply Forall_impl; [exact Hc|]. intros c Hci.
      by apply Forall_cons in Hci as [_ ?]. }
    destruct (place_item_cases stock_length cut_kerf bins item)
      as [(l1 & b & l2 & -> & _ & _ & ->)|[_ ->]].
    + apply Forall_app in Hbins as [H1 H2].
      apply Forall_cons in H2 as [[Hs Hc] H2].
      apply Forall_app. split; [by eapply Forall_impl|].
      apply Forall_cons. split; [|by eapply Forall_impl].
      simpl. split.
      * apply StronglySorted_snoc; [done|].
        eapply Forall_impl; [exact Hc|]. intros c Hci.
        by apply Forall_cons in Hci as [? _].
      * apply Forall_app. split; [|by apply Forall_singleton].
        eapply Forall_impl; [exact Hc|]. intros c Hci.
        by apply Forall_cons in Hci as [_ ?].
    + apply Forall_app. split; [by eapply Forall_impl|].
      apply Forall_singleton. simpl. split; [repeat constructor|].
      by apply Forall_singleton.
Qed.

(** X11.  Within every bin the cuts stand longest first: since the items
    are packed in descending order, the cuts of a bin never get longer from
    one to the next. *)
Theorem best_fit_cuts_descending parts stock_length cut_kerf :
  Forall (fun b => StronglySorted longer_first (cuts b))
    (best_fit_cutting_stock parts stock_length cut_kerf).
Proof.
  unfold best_fit_cutting_stock, pack_items.
  apply foldl_place_item_descending; [apply sort_items_sorted|constructor].
Qed.

Lemma place_item_lookup stock_length cut_kerf bins item a ba :
  place_item stock_length cut_kerf bins item !! a = Some ba ->
  (exists b0, bins !! a = Some b0 /\
     (ba = b0 \/ ba = add_cut (effective cut_kerf item) item b0)) \/
  (a = length bins /\
   ba = new_bin stock_length (effective cut_kerf item) item /\
   forall b, b ∈ bins -> ~ fits (effective cut_kerf item) b).
Proof.
  unfold place_item. fold (effective cut_kerf item).
  destruct (find_best_bin _ _) as [i|] eqn:Hbest.
  - rewrite list_lookup_alter. case_decide as E.
    + subst a. intros H. apply fmap_Some in H as (b0 & Hb0 & ->).
      left. exists b0. split; [done|]. by right.
    + intros H. left. exists ba. split; [done|]. by left.
  - intros H. apply lookup_snoc_Some in H as [[_ H]|[-> <-]].
    + left. exists ba. split; [done|]. by left.
    + right. split; [done|]. split; [done|]. by apply find_best_bin_None.
Qed.

Lemma place_item_opened_in_need stock_length cut_kerf bins item :
  (0 <= effective cut_kerf item)%Q ->
  Forall (fun b => cuts b <> []) bins ->
  opened_in_need cut_kerf bins ->
  opened_in_need cut_kerf (place_item stock_length cut_kerf bins item).
Proof.
  intros Hpos Hne Hinv i j bi bj Hij Hi Hj.
  apply place_item_lookup in Hi, Hj.
  assert (exists bi0, bins !! i = Some bi0 /\ (remaining bi <= remaining bi0)%Q)
    as (bi0 & Hi0 & Hle).
  { destruct Hi as [(bi0 & Hi0 & [->| ->])|(-> & _ & _)].
    - exists bi0. split; [done|]. lra.
    - exists bi0. split; [done|]. simpl. lra.
    - destruct Hj as [(bj0 & Hj0 & _)|(-> & _ & _)]; [|lia].
      apply lookup_lt_Some in Hj0. lia. }
  destruct Hj as [(bj0 & Hj0 & Hbj)|(-> & -> & Hnofit)].
  - destruct (Hinv i j bi0 bj0 Hij Hi0 Hj0) as (c & Hc & Hlt).
    exists c. split; [|lra].
    destruct Hbj as [->| ->]; [done|]. simpl.
    destruct (cuts bj0); [done|]. done.
  - exists item. split; [done|].
    assert (~ fits (effective cut_kerf item) bi0) as Hno.
    { apply Hnofit. by eapply list_elem_of_lookup_2. }
    unfold fits in Hno. apply Qnot_le_lt in Hno. lra.
Qed.

Lemma foldl_place_item_opened_in_need stock_length cut_kerf items :
  Forall (fun c => (0 <= effective cut_kerf c)%Q) items ->
  forall bins,
    Forall (fun b => cuts b <> []) bins ->
    opened_in_need cut_kerf bins ->
    opened_in_need cut_kerf (foldl (place_item stock_length cut_kerf) bins items).
Proof.
  induction 1 as [|item items Hitem _ IH]; intros bins Hne Hinv; simpl; [done|].
  apply IH.
  - apply place_item_Forall with (I := fun _ => True); try done.
    intros c b _ _ _. simpl. by destruct (cuts b).
  - by apply place_item_opened_in_need.
Qed.

(** X12.  A bin is opened only in need: with positive lengths and a kerf
    that is not negative, what is left of a bin at the end is less than the
    effective length of the first cut of every bin behind it.  The piece
    that opened a later bin would not fit in what any earlier bin has
    left. *)
Theorem best_fit_opened_in_need parts stock_length cut_kerf i j bi bj :
  Forall (fun p => (0 < part_length p)%Z) parts ->
  (0 <= cut_kerf)%Q ->
  i < j ->
  best_fit_cutting_stock parts stock_length cut_kerf !! i = Some bi ->
  best_fit_cutting_stock parts stock_length cut_kerf !! j = Some bj ->
  exists c, head (cuts bj) = Some c /\
            (remaining bi < effective cut_kerf c)%Q.
Proof.
  intros Hlen Hkerf.
  assert (Forall (fun c => (0 <= effective cut_kerf c)%Q) (expand_items parts))
    as Hpos.
  { unfold expand_items. apply Forall_flat_map.
    eapply Forall_impl; [exact Hlen|]. intros p Hp.
    apply Forall_forall. intros c Hc. apply elem_of_replicate in Hc as [-> _].
    unfold effective. simpl.
    assert (0 < inject_Z (part_length p))%Q
      by (unfold Qlt; simpl in *; lia).
    lra. }
  apply (foldl_place_item_opened_in_need stock_length cut_kerf
           (sort_items (expand_items parts))).
  - by rewrite sort_items_perm.
  - constructor.
  - intros i' j' bi' bj' _ Hi'. by rewrite lookup_nil in Hi'.
Qed.

Lemma best_fit_opened_in_need_witness :
  exists c,
    head (cuts {| remaining := 60; cuts := [("UPN80_S235", 90%Z)] |}) = Some c /\
    (remaining {| remaining := 0;
                  cuts := [("UPN80_S235", 100%Z); ("UPN80_S235", 50%Z)] |}
     < effective 0 c)%Q.
Proof.
  apply (best_fit_opened_in_need
           [mkPart "UPN80_S235" 50 1 (86 # 10); mkPart "UPN80_S235" 100 1 (86 # 10);
            mkPart "UPN80_S235" 90 1 (86 # 10)] 150 0 0 1).
  - repeat (apply Forall_cons; split); try apply Forall_nil_2; simpl; lia.
  - lra.
  - lia.
  - reflexivity.
  - reflexivity.
Defined.

(** ** More on the two reporters *)

(** X13.  The pattern table of the packer's bins, in exact arithmetic:
    with a kerf that is an integer, the table has one row for each bin, in
    the order of the bins; the pattern length of a row is the sum of the
    lengths of the bin's cuts with one kerf for each cut, its waste is what
    remains of the bin, and the two add up to the stock length. *)
Theorem pattern_table_of_packer parts stock_length (kerf : Z) :
  Forall2
    (fun b row =>
       (pattern_length row
        == inject_Z (sum_Z ((fun c : CutItem => c.2 + kerf)%Z <$> cuts b)))%Q /\
       remaining_waste row = remaining b /\
       (pattern_length row + remaining_waste row == inject_Z stock_length)%Q)
    (best_fit_cutting_stock parts stock_length (inject_Z kerf))
    (generate_pattern_details_table
       (best_fit_cutting_stock parts stock_length (inject_Z kerf))
       stock_length).1.
Proof.
  pose proof (best_fit_balanced parts stock_length (inject_Z kerf)) as Hbal.
  unfold generate_pattern_details_table. simpl.
  apply Forall2_same_length_lookup. split; [by rewrite length_imap|].
  intros i b row Hb Hrow.
  rewrite list_lookup_imap, Hb in Hrow. injection Hrow as <-. simpl.
  rewrite Forall_forall in Hbal.
  assert (balanced stock_length (inject_Z kerf) b) as Hb'
    by (apply Hbal; by eapply list_elem_of_lookup_2).
  unfold balanced in Hb'. rewrite sum_effective_int in Hb'.
  repeat split; lra.
Qed.

Lemma total_remaining_nonneg bins :
  Forall (fun b => (0 <= remaining b)%Q) bins -> (0 <= total_remaining bins)%Q.
Proof.
  induction 1 as [|b bins Hb _ IH]; simpl; [lra|].
  fold (total_remaining bins). lra.
Qed.

Lemma best_fit_remaining_nonneg parts stock_length cut_kerf :
  Forall (fun c => (effective cut_kerf c <= inject_Z stock_length)%Q)
    (expand_items parts) ->
  Forall (fun b => (0 <= remaining b)%Q)
    (best_fit_cutting_stock parts stock_length cut_kerf).
Proof.
  intros Hfit. unfold best_fit_cutting_stock.
  apply pack_items_Forall
    with (I := fun c => (effective cut_kerf c <= inject_Z stock_length)%Q).
  - intros item Hitem. simpl. lra.
  - intros item b _ Hb Hfits. unfold fits in Hfits. simpl. lra.
  - by rewrite sort_items_perm.
Qed.

(** X14.  The waste of the report is the waste of the bins, in exact
    arithmetic: with a kerf that is an integer, for the bins the packer
    returns and quantities that are not negative, the waste
    [generate_final_report] computes is the sum of what remains of the
    bins, the kerf counted once for every cut; so it is not negative when
    [length + kerf] is at most the stock length for every item. *)
Theorem report_waste_of_packer parts stock_length (kerf : Z) :
  Forall (fun p => (0 <= part_demand p)%Z) parts ->
  (waste_mm parts
     (best_fit_cutting_stock parts stock_length (inject_Z kerf))
     stock_length (inject_Z kerf)
   == total_remaining
        (best_fit_cutting_stock parts stock_length (inject_Z kerf)))%Q /\
  (Forall (fun c : CutItem => (c.2 + kerf <= stock_length)%Z)
     (expand_items parts) ->
   (0 <= waste_mm parts
           (best_fit_cutting_stock parts stock_length (inject_Z kerf))
           stock_length (inject_Z kerf))%Q).
Proof.
  intros Hdemand.
  pose proof (waste_mm_total_remaining parts stock_length (inject_Z kerf)
                Hdemand) as H.
  split; [done|]. intros Hfit. rewrite H.
  apply total_remaining_nonneg, best_fit_remaining_nonneg.
  eapply Forall_impl; [exact Hfit|]. intros c Hc. simpl in Hc.
  unfold effective. rewrite <- inject_Z_plus. by rewrite <- Zle_Qle.
Qed.

Lemma report_waste_of_packer_witness :
  (waste_mm [mkPart "IPE100_S235" 3500 1 8; mkPart "IPE100_S235" 1200 3 8]
     (best_fit_cutting_stock
        [mkPart "IPE100_S235" 3500 1 8; mkPart "IPE100_S235" 1200 3 8]
        6000 (inject_Z 3))
     6000 (inject_Z 3)
   == total_remaining
        (best_fit_cutting_stock
           [mkPart "IPE100_S235" 3500 1 8; mkPart "IPE100_S235" 1200 3 8]
           6000 (inject_Z 3)))%Q.
Proof.
  apply (report_waste_of_packer
           [mkPart "IPE100_S235" 3500 1 8; mkPart "IPE100_S235" 1200 3 8] 6000 3).
  repeat (apply Forall_cons; split); try apply Forall_nil_2; simpl; lia.
Defined.

(** X15.  Only the first part of a group gives its profile and its weight
    to the report: two parts lists with the same first part and, part by
    part, the same lengths and quantities behind it give the same row,
    whatever the profiles and the weights per metre of the parts behind the
    first. *)
Theorem final_report_first_part_only p rest rest' bins stock_length cut_kerf profile :
  (fun q => (part_length q, part_demand q)) <$> rest
  = (fun q => (part_length q, part_demand q)) <$> rest' ->
  generate_final_report (p :: rest) bins stock_length cut_kerf profile
  = generate_final_report (p :: rest') bins stock_length cut_kerf profile.
Proof.
  intros Hsame.
  assert ((fun q => (part_length q * part_demand q)%Z) <$> rest
          = (fun q => (part_length q * part_demand q)%Z) <$> rest') as Husage.
  { change (fun q => (part_length q * part_demand q)%Z)
      with ((fun ld : Z * Z => (ld.1 * ld.2)%Z)
            ∘ (fun q => (part_length q, part_demand q))).
    by rewrite !(list_fmap_compose (fun q => (part_length q, part_demand q))),
         Hsame. }
  assert (part_demand <$> rest = part_demand <$> rest') as Hdemand.
  { change part_demand
      with ((snd : Z * Z -> Z) ∘ (fun q => (part_length q, part_demand q))).
    by rewrite !(list_fmap_compose (fun q => (part_length q, part_demand q))),
         Hsame. }
  unfold generate_final_report, waste_mm, effective_usage_mm, total_demand.
  simpl first. cbv beta iota. rewrite !fmap_cons, Husage, Hdemand. done.
Qed.

Lemma final_report_first_part_only_witness :
  generate_final_report
    [mkPart "IPE100_S235" 1200 2 (81 # 10); mkPart "IPE100_S235" 800 3 (81 # 10)]
    [] 6000 3 None
  = generate_final_report
      [mkPart "IPE100_S235" 1200 2 (81 # 10); mkPart "HEA200_S355" 800 3 (423 # 10)]
      [] 6000 3 None.
Proof.
  apply (final_report_first_part_only
           (mkPart "IPE100_S235" 1200 2 (81 # 10))
           [mkPart "IPE100_S235" 800 3 (81 # 10)]
           [mkPart "HEA200_S355" 800 3 (423 # 10)] [] 6000 3 None).
  reflexivity.
Defined.

(** ** The tables of a parsed file *)

Lemma best_fit_nil parts stock_length cut_kerf :
  best_fit_cutting_stock parts stock_length cut_kerf = [] ->
  expand_items parts = [].
Proof.
  intros E. pose proof (best_fit_all_cuts parts stock_length cut_kerf) as H.
  rewrite E in H. by apply Permutation_nil_l in H.
Qed.

Lemma expand_items_nonempty parts :
  parts <> [] -> Forall (fun p => (0 < part_demand p)%Z) parts ->
  expand_items parts <> [].
Proof.
  destruct parts as [|p parts]; [done|]. intros _ H.
  apply Forall_cons in H as [Hp _]. unfold expand_items. simpl.
  destruct (Z.to_nat (part_demand p)) eqn:E; [lia|done].
Qed.

Lemma headers_or_twice headers new :
  new <> [] -> headers_or (headers_or headers new) new = headers_or headers new.
Proof. destruct headers as [[|? ?]|], new; done. Qed.

Lemma process_groups_details stock_length cut_kerf groups :
  Forall (fun g => g.2 <> [] /\ Forall (fun p => (0 < part_demand p)%Z) g.2)
    groups ->
  forall t t',
    process_groups stock_length cut_kerf t groups = Returns t' ->
    all_details_data t'
    = all_details_data t
      ++ flat_map (details_of_group stock_length cut_kerf) groups /\
    (groups <> [] ->
     final_headers t' = headers_or (final_headers t) aggregate_headers /\
     details_headers t' = headers_or (details_headers t) pattern_headers).
Proof.
  induction 1 as [|[profile group] groups [Hne Hdemand] _ IH]; intros t t'.
  - simpl. intros [= <-]. by rewrite app_nil_r.
  - simpl in Hne, Hdemand.
    pose proof (expand_items_nonempty group Hne Hdemand) as Hitems.
    destruct group as [|part group]; [done|].
    simpl process_groups. unfold process_group.
    simpl generate_final_report. unfold generate_pattern_details_table.
    cbv beta iota zeta. simpl fst. simpl snd.
    destruct (best_fit_cutting_stock (part :: group) stock_length cut_kerf)
      as [|b bins] eqn:Ebins; [by apply best_fit_nil in Ebins|].
    intros Hrun. destruct (IH _ _ Hrun) as (Hdetails & Hheaders).
    simpl in Hdetails, Hheaders. split.
    + rewrite Hdetails. simpl flat_map. unfold details_of_group at 2.
      unfold generate_pattern_details_table. simpl fst. simpl snd.
      rewrite Ebins. by rewrite <- !app_assoc.
    + intros _. destruct groups as [|g groups].
      * simpl in Hrun. by injection Hrun as <-.
      * destruct Hheaders as [Hf Hd]; [done|]. rewrite Hf, Hd.
        by rewrite !headers_or_twice.
Qed.

(** X16.  The tables of a parts list with positive quantities, as
    [read_csv_parts] returns it: the details table is, profile after profile
    in the order of the groups, the heading of the profile followed by the
    pattern rows of its bins, whose numbering starts again with every
    profile; every profile uses at least one stock bar; and both tables get
    their headers when there is a part at all. *)
Theorem build_tables_details parts stock_length cut_kerf :
  Forall (fun p => (0 < part_demand p)%Z) parts ->
  exists t,
    build_tables parts stock_length cut_kerf = Returns t /\
    all_details_data t
    = flat_map (details_of_group stock_length cut_kerf) (group_by_profile parts) /\
    Forall (fun row => 1 <= row_total_stocks_used row) (all_final_data t) /\
    (parts <> [] ->
     final_headers t = Some aggregate_headers /\
     details_headers t = Some pattern_headers).
Proof.
  intros Hdemand.
  assert (Forall (fun g => g.2 <> [] /\
                           Forall (fun p => (0 < part_demand p)%Z) g.2)
            (group_by_profile parts)) as Hgroups.
  { pose proof (group_by_profile_groups parts) as Hne.
    rewrite group_by_profile_eq in *. apply Forall_fmap, Forall_forall.
    intros k Hk. rewrite Forall_fmap, Forall_forall in Hne.
    split; [by apply (Hne k Hk)|]. simpl. unfold of_profile.
    apply Forall_forall. intros p Hp.
    apply list_elem_of_filter in Hp as [_ Hp].
    rewrite Forall_forall in Hdemand. by apply Hdemand. }
  unfold build_tables.
  destruct (process_groups_rows stock_length cut_kerf (group_by_profile parts)
              (group_by_profile_groups parts)
              {| all_final_data := []; all_details_data := [];
                 final_headers := None; details_headers := None |})
    as (t & rows & Hrun & Hdata & Hrows).
  simpl in Hdata. subst rows.
  destruct (process_groups_details stock_length cut_kerf _ Hgroups _ _ Hrun)
    as [Hdetails Hheaders].
  exists t. split; [done|]. split; [done|]. split.
  - clear Hrun Hdetails Hheaders.
    induction Hrows as [|g row groups rows (_ & Hused & _) _ IH];
      [constructor|].
    apply Forall_cons in Hgroups as [[Hne Hpos] Hgroups].
    constructor; [|by apply IH]. rewrite Hused.
    destruct (best_fit_cutting_stock g.2 stock_length cut_kerf) eqn:E;
      [|simpl; lia].
    apply best_fit_nil in E. by apply expand_items_nonempty in E.
  - intros Hparts. apply Hheaders. intros E.
    pose proof (group_by_profile_concat parts) as Hperm.
    rewrite E in Hperm. by apply Permutation_nil_l in Hperm.
Qed.

Lemma build_tables_details_witness :
  exists t,
    build_tables
      [mkPart "IPE100_S235" 1200 2 (81 # 10); mkPart "HEA200_S355" 800 3 (423 # 10)]
      6000 3 = Returns t /\
    all_details_data t
    = flat_map (details_of_group 6000 3)
        (group_by_profile
           [mkPart "IPE100_S235" 1200 2 (81 # 10);
            mkPart "HEA200_S355" 800 3 (423 # 10)]) /\
    Forall (fun row => 1 <= row_total_stocks_used row) (all_final_data t) /\
    ([mkPart "IPE100_S235" 1200 2 (81 # 10); mkPart "HEA200_S355" 800 3 (423 # 10)]
     <> [] ->
     final_headers t = Some aggregate_headers /\
     details_headers t = Some pattern_headers).
Proof.
  apply (build_tables_details
           [mkPart "IPE100_S235" 1200 2 (81 # 10);
            mkPart "HEA200_S355" 800 3 (423 # 10)] 6000 3).
  repeat (apply Forall_cons; split); try apply Forall_nil_2; simpl; lia.
Defined.
